(** * strqueue: a registry of string queues addressed by integer handles

    Shallow embedding of [strqueue.cpp].  The translation unit keeps three
    function-local statics ([cnt], [queues], [empty_queue]); they are the
    fields of the record [Registry] below and every exported function of
    namespace [cxx] becomes a function that takes the registry and returns
    its result together with the registry it leaves behind.

    Conventions.
    - [unsigned long] and [size_t] values are [N]; the only arithmetic on
      them is [cnt++], whose wrap-around is written out.
    - [std::string] is [string] (a sequence of 8-bit characters);
      a [const char*] argument or result is [option string]: [None] is the
      null pointer, [Some s] the characters before the terminator.
    - [std::deque<std::string>] is [list string]; an iterator is the
      distance from [begin()].
    - [std::unordered_map<unsigned long, deque<string>>] is
      [gmap N (list string)].
    - The [cerr] tracing guarded by [if constexpr (debug)] writes nothing
      into the statics and is left out.  The build flag itself is kept:
      [debug] is [false] exactly when [NDEBUG] is defined, and [NDEBUG] is
      also what turns [assert] into a no-op. *)

From Stdlib Require Import ZArith NArith Ascii String DecimalString DecimalN.
From stdpp Require Import base numbers option list gmap.

Local Open Scope N_scope.

(** ** Ordering of strings and deques, as the C++ library defines it *)

Module Cxx.

(** [std::char_traits<char>::compare(s1, s2, n)]: the first [n] characters
    of both strings, compared as unsigned bytes.  The result is negative,
    zero or positive. *)
Fixpoint traits_compare (s1 s2 : string) (n : nat) : Z :=
  match n with
  | O => 0%Z
  | S n' =>
      match s1, s2 with
      | String c1 t1, String c2 t2 =>
          if N_of_ascii c1 <? N_of_ascii c2 then (-1)%Z
          else if N_of_ascii c2 <? N_of_ascii c1 then 1%Z
          else traits_compare t1 t2 n'
      | _, _ => 0%Z
      end
  end.

(** [std::string::compare]: the common prefix decides, then the lengths. *)
Definition string_compare (s1 s2 : string) : Z :=
  let size := String.length s1 in
  let osize := String.length s2 in
  let r := traits_compare s1 s2 (Nat.min size osize) in
  if (r =? 0)%Z then (Z.of_nat size - Z.of_nat osize)%Z else r.

(** [operator<] on [std::string]. *)
Definition string_lt (s1 s2 : string) : bool :=
  (string_compare s1 s2 <? 0)%Z.

(** [std::lexicographical_compare] over two deques of strings, which is
    what [operator<] on [std::deque<std::string>] runs. *)
Fixpoint lexicographical_compare (q1 q2 : list string) : bool :=
  match q1, q2 with
  | x :: t1, y :: t2 =>
      if string_lt x y then true
      else if string_lt y x then false
      else lexicographical_compare t1 t2
  | [], _ :: _ => true
  | _, [] => false
  end.

Definition deque_lt (q1 q2 : list string) : bool :=
  lexicographical_compare q1 q2.

(** [operator>] is [operator<] with its arguments exchanged. *)
Definition deque_gt (q1 q2 : list string) : bool :=
  lexicographical_compare q2 q1.

(** Iterators of a deque: [begin()], [++it], [*it], [insert], [erase]. *)
Abbreviation iterator := nat (only parsing).

Definition deque_begin (queue : list string) : iterator := O.

Definition iterator_next (it : iterator) : iterator := S it.

Definition iterator_deref (queue : list string) (it : iterator)
  : option string := queue !! it.

Definition deque_insert (queue : list string) (it : iterator) (s : string)
  : list string := take it queue ++ s :: drop it queue.

Definition deque_erase (queue : list string) (it : iterator)
  : list string := delete it queue.

Definition deque_push_back (queue : list string) (s : string)
  : list string := queue ++ [s].

Definition deque_size (queue : list string) : N := N.of_nat (length queue).

End Cxx.

Import Cxx.

(** ** The statics of the translation unit *)

(** [numeric_limits<unsigned long>::max()] (LP64: 64 bits). *)
Definition ULONG_MAX : N := 2 ^ 64 - 1.

Record Registry := mkRegistry {
  cnt : N;
  queues : gmap N (list string);
  empty_queue : list string
}.

(** The state the statics are initialised with. *)
Definition registry_init : Registry :=
  {| cnt := 0; queues := ∅; empty_queue := [] |}.

Definition set_queues (m : gmap N (list string)) (r : Registry) : Registry :=
  {| cnt := cnt r; queues := m; empty_queue := empty_queue r |}.

(** [deque_get_iterator_at]: [position] increments from [begin()]. *)
Definition deque_get_iterator_at (queue : list string) (position : N)
  : iterator :=
  N.iter position iterator_next (deque_begin queue).

(** ** The exported functions *)

(** [strqueue_new].  [None] is the failed assertion, which aborts the
    process; it is only checked when [NDEBUG] is not defined. *)
Definition strqueue_new (debug : bool) (r : Registry)
  : option (N * Registry) :=
  if debug && negb (cnt r <? ULONG_MAX) then None
  else Some (cnt r,
             {| cnt := (cnt r + 1) mod 2 ^ 64;
                queues := <[cnt r := []]> (queues r);
                empty_queue := empty_queue r |}).

Definition strqueue_delete (id : N) (r : Registry) : Registry :=
  match queues r !! id with
  | None => r
  | Some _ => set_queues (delete id (queues r)) r
  end.

Definition strqueue_size (id : N) (r : Registry) : N * Registry :=
  match queues r !! id with
  | None => (0, r)
  | Some queue => (deque_size queue, r)
  end.

Definition strqueue_insert_at (id : N) (position : N) (str : option string)
    (r : Registry) : Registry :=
  match queues r !! id, str with
  | Some queue, Some s =>
      let queue' :=
        if deque_size queue <=? position then deque_push_back queue s
        else deque_insert queue (deque_get_iterator_at queue position) s in
      set_queues (<[id := queue']> (queues r)) r
  | _, _ => r
  end.

Definition strqueue_remove_at (id : N) (position : N) (r : Registry)
  : Registry :=
  let queue_it := queues r !! id in
  let queue := default (empty_queue r) queue_it in
  if bool_decide (queue_it = None) || (deque_size queue <=? position) then r
  else
    set_queues
      (<[id := deque_erase queue (deque_get_iterator_at queue position)]>
         (queues r)) r.

Definition strqueue_get_at (id : N) (position : N) (r : Registry)
  : option string * Registry :=
  let queue_it := queues r !! id in
  let queue := default (empty_queue r) queue_it in
  if bool_decide (queue_it = None) || (deque_size queue <=? position)
  then (None, r)
  else (iterator_deref queue (deque_get_iterator_at queue position), r).

Definition strqueue_clear (id : N) (r : Registry) : Registry :=
  match queues r !! id with
  | None => r
  | Some _ => set_queues (<[id := []]> (queues r)) r
  end.

Definition strqueue_comp (id1 id2 : N) (r : Registry) : Z * Registry :=
  let q1 := default (empty_queue r) (queues r !! id1) in
  let q2 := default (empty_queue r) (queues r !! id2) in
  let res :=
    if deque_lt q1 q2 then (-1)%Z
    else if deque_gt q1 q2 then 1%Z
    else 0%Z in
  (res, r).

(** ** Calls and runs

    A client is a sequence of calls.  [exec] performs one call, [run] a
    sequence from a given registry; a run stops at the call that aborts. *)

Inductive Op :=
| OpNew
| OpDelete (id : N)
| OpSize (id : N)
| OpInsertAt (id position : N) (str : option string)
| OpRemoveAt (id position : N)
| OpGetAt (id position : N)
| OpClear (id : N)
| OpComp (id1 id2 : N).

Inductive Ret :=
| RetHandle (id : N)
| RetVoid
| RetSize (n : N)
| RetStr (s : option string)
| RetInt (z : Z).

Definition exec (debug : bool) (op : Op) (r : Registry)
  : option (Ret * Registry) :=
  match op with
  | OpNew =>
      match strqueue_new debug r with
      | Some (id, r') => Some (RetHandle id, r')
      | None => None
      end
  | OpDelete id => Some (RetVoid, strqueue_delete id r)
  | OpSize id => let '(n, r') := strqueue_size id r in Some (RetSize n, r')
  | OpInsertAt id position str =>
      Some (RetVoid, strqueue_insert_at id position str r)
  | OpRemoveAt id position => Some (RetVoid, strqueue_remove_at id position r)
  | OpGetAt id position =>
      let '(s, r') := strqueue_get_at id position r in Some (RetStr s, r')
  | OpClear id => Some (RetVoid, strqueue_clear id r)
  | OpComp id1 id2 =>
      let '(z, r') := strqueue_comp id1 id2 r in Some (RetInt z, r')
  end.

(** The results of the calls that returned, and the registry at the end
    ([None] when the process was aborted). *)
Fixpoint run (debug : bool) (ops : list Op) (r : Registry)
  : list Ret * option Registry :=
  match ops with
  | [] => ([], Some r)
  | op :: ops' =>
      match exec debug op r with
      | None => ([], None)
      | Some (v, r') =>
          let '(vs, fin) := run debug ops' r' in (v :: vs, fin)
      end
  end.

(** The handles a run handed out, in order. *)
Definition handle_of (v : Ret) : option N :=
  match v with RetHandle id => Some id | _ => None end.

Definition issued (vs : list Ret) : list N := omap handle_of vs.

Definition is_new (op : Op) : bool :=
  match op with OpNew => true | _ => false end.

Definition creations (ops : list Op) : nat :=
  length (List.filter is_new ops).

(** A registry the process can be in: the end of some run from the
    initial statics. *)
Definition reachable (debug : bool) (r : Registry) : Prop :=
  ∃ ops, (run debug ops registry_init).2 = Some r.

(** The handle a call is addressed to and whether the call only reads. *)
Definition addressed (op : Op) : list N :=
  match op with
  | OpNew => []
  | OpDelete id | OpSize id | OpInsertAt id _ _ | OpRemoveAt id _
  | OpGetAt id _ | OpClear id => [id]
  | OpComp id1 id2 => [id1; id2]
  end.

Definition read_only (op : Op) : bool :=
  match op with
  | OpSize _ | OpGetAt _ _ | OpComp _ _ => true
  | _ => false
  end.

(** The queue a handle names, if any, and the observations a client can
    make of it. *)
Definition live (r : Registry) (id : N) : Prop := is_Some (queues r !! id).

(** ** The order the specification describes

    Lexicographic order of two sequences: the first position where the
    elements differ decides; a strict prefix is less.  Strings are compared
    by the standard library's byte-wise order [String.compare]. *)

Module Spec.

Fixpoint lex_order {A} (cmp : A → A → comparison) (q1 q2 : list A)
  : comparison :=
  match q1, q2 with
  | [], [] => Eq
  | [], _ :: _ => Lt
  | _ :: _, [] => Gt
  | x :: t1, y :: t2 =>
      match cmp x y with
      | Eq => lex_order cmp t1 t2
      | c => c
      end
  end.

Definition queue_order : list string → list string → comparison :=
  lex_order String.compare.

(** less, equal, greater as the integers [strqueue_comp] returns. *)
Definition code (c : comparison) : Z :=
  match c with Lt => (-1)%Z | Eq => 0%Z | Gt => 1%Z end.

(** An unknown handle denotes the empty queue. *)
Definition denoted (r : Registry) (id : N) : list string :=
  default [] (queues r !! id).

End Spec.

(** ** Sample registries

    [sample_registry] is the registry after two creations and the
    insertions of "a" and "b" into queue 0; [sample_run] is the run that
    produces it. *)

Definition sample_run : list Op :=
  [OpNew; OpNew; OpInsertAt 0 0 (Some "b"%string);
   OpInsertAt 0 0 (Some "a"%string)].

Definition sample_registry : Registry :=
  {| cnt := 2;
     queues := <[0 := ["a"; "b"]%string]> (<[1 := []]> ∅);
     empty_queue := [] |}.

(** [churn id n]: [n] rounds of creating a queue and deleting it again,
    for a client that knows the first handle it will get is [id].  The
    registry never holds more than one queue during such a run. *)
Fixpoint churn (id : N) (n : nat) : list Op :=
  match n with
  | O => []
  | S n' => OpNew :: OpDelete id :: churn ((id + 1) mod 2 ^ 64) n'
  end.

(** The registry with no queue and the counter at [c]. *)
Definition registry_at (c : N) : Registry :=
  {| cnt := c; queues := ∅; empty_queue := [] |}.

(** ** Clients that use a queue first in, first out

    [push_all] inserts the strings of a list one after the other at the
    position that is the current size; [drain] reads and removes the front
    element a number of times and collects what it read. *)

Definition push_all (id : N) (l : list string) (r : Registry) : Registry :=
  foldl
    (λ r0 s, strqueue_insert_at id (strqueue_size id r0).1 (Some s) r0) r l.

Fixpoint drain (id : N) (n : nat) (r : Registry)
  : list (option string) * Registry :=
  match n with
  | O => ([], r)
  | S n' =>
      let front := (strqueue_get_at id 0 r).1 in
      let '(rest, r') := drain id n' (strqueue_remove_at id 0 r) in
      (front :: rest, r')
  end.

(** ** The functions with their tracing

    With [debug] set, every function reports on [cerr]: the call, notices
    about unknown handles and positions, and the result.  [Trace] has the
    functions once more, as the source writes them, tracing included; the
    output is the list of the texts written by the [debug_] functions, in
    order, [cerr] receiving their concatenation.  The message that a failed
    [assert] prints is left to the C library and is not part of it. *)

Module Trace.

Definition newline : string := String "010"%char EmptyString.

Definition quote : string := String "034"%char EmptyString.

(** [std::to_string] on an unsigned value and [operator<<] on an integer:
    decimal digits. *)
Definition to_string (n : N) : string :=
  NilEmpty.string_of_uint (N.to_uint n).

Definition int_to_string (z : Z) : string :=
  NilEmpty.string_of_int (Z.to_int z).

(** The argument types [debug_return] is instantiated at. *)
Inductive value :=
| VNull
| VIntegral (z : Z)
| VCString (s : string).

Definition debug_call (name params : string) : string :=
  name ++ "(" ++ params ++ ")" ++ newline.

Definition debug_return (name : string) (v : value) : string :=
  match v with
  | VNull => name ++ " returns NULL" ++ newline
  | VIntegral z => name ++ " returns " ++ int_to_string z ++ newline
  | VCString s => name ++ " returns " ++ quote ++ s ++ quote ++ newline
  end.

Definition debug_done (name : string) : string :=
  name ++ " done" ++ newline.

Definition debug_doesnt_exist (name : string) (id : N) : string :=
  name ++ ": queue " ++ to_string id ++ " does not exist" ++ newline.

Definition debug_doesnt_contain (name : string) (id position : N) : string :=
  name ++ ": queue " ++ to_string id
       ++ " does not contain string at position " ++ to_string position
       ++ newline.

Definition debug_failed (name : string) : string :=
  name ++ " failed" ++ newline.

(** A computation that writes to [cerr]. *)
Definition W (A : Type) : Type := (list string * A)%type.

#[export] Instance W_ret : MRet W := λ A a, ([], a).

#[export] Instance W_bind : MBind W := λ A B k m,
  let '(o1, a) := m in let '(o2, b) := k a in (o1 ++ o2, b).

(** [if constexpr (debug)] around one call of a [debug_] function. *)
Definition cerr (debug : bool) (text : string) : W unit :=
  (if debug then [text] else [], tt).

Definition skip : W unit := mret tt.

Definition strqueue_new (debug : bool) (r : Registry)
  : W (option (N * Registry)) :=
  cerr debug (debug_call "strqueue_new" "");;
  if debug && negb (cnt r <? ULONG_MAX) then mret None
  else
    cerr debug (debug_return "strqueue_new" (VIntegral (Z.of_N (cnt r))));;
    mret (Some (cnt r,
                {| cnt := (cnt r + 1) mod 2 ^ 64;
                   queues := <[cnt r := []]> (queues r);
                   empty_queue := empty_queue r |})).

Definition strqueue_delete (debug : bool) (id : N) (r : Registry)
  : W Registry :=
  cerr debug (debug_call "strqueue_delete" (to_string id));;
  match queues r !! id with
  | None =>
      cerr debug (debug_doesnt_exist "strqueue_delete" id);;
      mret r
  | Some _ =>
      cerr debug (debug_done "strqueue_delete");;
      mret (set_queues (delete id (queues r)) r)
  end.

Definition strqueue_size (debug : bool) (id : N) (r : Registry)
  : W (N * Registry) :=
  cerr debug (debug_call "strqueue_size" (to_string id));;
  match queues r !! id with
  | None =>
      cerr debug (debug_doesnt_exist "strqueue_size" id);;
      cerr debug (debug_return "strqueue_size" (VIntegral 0));;
      mret (0, r)
  | Some queue =>
      cerr debug
        (debug_return "strqueue_size" (VIntegral (Z.of_N (deque_size queue))));;
      mret (deque_size queue, r)
  end.

Definition strqueue_insert_at (debug : bool) (id position : N)
    (str : option string) (r : Registry) : W Registry :=
  cerr debug
    (match str with
     | None =>
         debug_call "strqueue_insert_at"
           (to_string id ++ ", " ++ to_string position ++ ", NULL")
     | Some s =>
         debug_call "strqueue_insert_at"
           (to_string id ++ ", " ++ to_string position ++ ", " ++ quote
              ++ s ++ quote)
     end);;
  match queues r !! id, str with
  | Some queue, Some s =>
      let queue' :=
        if deque_size queue <=? position then deque_push_back queue s
        else deque_insert queue (deque_get_iterator_at queue position) s in
      cerr debug (debug_done "strqueue_insert_at");;
      mret (set_queues (<[id := queue']> (queues r)) r)
  | queue_it, _ =>
      (if queue_it is None
       then cerr debug (debug_doesnt_exist "strqueue_insert_at" id)
       else skip);;
      (if str is None
       then cerr debug (debug_failed "strqueue_insert_at")
       else skip);;
      mret r
  end.

Definition strqueue_remove_at (debug : bool) (id position : N)
    (r : Registry) : W Registry :=
  cerr debug
    (debug_call "strqueue_remove_at"
       (to_string id ++ ", " ++ to_string position));;
  let queue_it := queues r !! id in
  let queue := default (empty_queue r) queue_it in
  if bool_decide (queue_it = None) || (deque_size queue <=? position) then
    (if bool_decide (queue_it = None)
     then cerr debug (debug_doesnt_exist "strqueue_remove_at" id)
     else cerr debug (debug_doesnt_contain "strqueue_remove_at" id position));;
    mret r
  else
    cerr debug (debug_done "strqueue_remove_at");;
    mret
      (set_queues
         (<[id := deque_erase queue (deque_get_iterator_at queue position)]>
            (queues r)) r).

Definition strqueue_get_at (debug : bool) (id position : N) (r : Registry)
  : W (option string * Registry) :=
  cerr debug
    (debug_call "strqueue_get_at"
       (to_string id ++ ", " ++ to_string position));;
  let queue_it := queues r !! id in
  let queue := default (empty_queue r) queue_it in
  if bool_decide (queue_it = None) || (deque_size queue <=? position) then
    (if bool_decide (queue_it = None)
     then cerr debug (debug_doesnt_exist "strqueue_get_at" id)
     else cerr debug (debug_doesnt_contain "strqueue_get_at" id position));;
    cerr debug (debug_return "strqueue_get_at" VNull);;
    mret (None, r)
  else
    let res := iterator_deref queue (deque_get_iterator_at queue position) in
    (if res is Some s
     then cerr debug (debug_return "strqueue_get_at" (VCString s))
     else skip);;
    mret (res, r).

Definition strqueue_clear (debug : bool) (id : N) (r : Registry)
  : W Registry :=
  cerr debug (debug_call "strqueue_clear" (to_string id));;
  match queues r !! id with
  | None =>
      cerr debug (debug_doesnt_exist "strqueue_clear" id);;
      mret r
  | Some _ =>
      cerr debug (debug_done "strqueue_clear");;
      mret (set_queues (<[id := []]> (queues r)) r)
  end.

Definition strqueue_comp (debug : bool) (id1 id2 : N) (r : Registry)
  : W (Z * Registry) :=
  cerr debug
    (debug_call "strqueue_comp" (to_string id1 ++ ", " ++ to_string id2));;
  let not_in_1 := bool_decide (queues r !! id1 = None) in
  let not_in_2 := bool_decide (queues r !! id2 = None) in
  let q1 := default (empty_queue r) (queues r !! id1) in
  let q2 := default (empty_queue r) (queues r !! id2) in
  (if not_in_1 then cerr debug (debug_doesnt_exist "strqueue_comp" id1)
   else skip);;
  (if not_in_2 then cerr debug (debug_doesnt_exist "strqueue_comp" id2)
   else skip);;
  let res :=
    if deque_lt q1 q2 then (-1)%Z
    else if deque_gt q1 q2 then 1%Z
    else 0%Z in
  cerr debug (debug_return "strqueue_comp" (VIntegral res));;
  mret (res, r).

(** One call, with what it writes. *)
Definition exec (debug : bool) (op : Op) (r : Registry)
  : W (option (Ret * Registry)) :=
  match op with
  | OpNew =>
      res ← strqueue_new debug r;
      mret (match res with
            | Some (id, r') => Some (RetHandle id, r')
            | None => None
            end)
  | OpDelete id =>
      r' ← strqueue_delete debug id r; mret (Some (RetVoid, r'))
  | OpSize id =>
      '(n, r') ← strqueue_size debug id r; mret (Some (RetSize n, r'))
  | OpInsertAt id position str =>
      r' ← strqueue_insert_at debug id position str r;
      mret (Some (RetVoid, r'))
  | OpRemoveAt id position =>
      r' ← strqueue_remove_at debug id position r; mret (Some (RetVoid, r'))
  | OpGetAt id position =>
      '(s, r') ← strqueue_get_at debug id position r;
      mret (Some (RetStr s, r'))
  | OpClear id =>
      r' ← strqueue_clear debug id r; mret (Some (RetVoid, r'))
  | OpComp id1 id2 =>
      '(z, r') ← strqueue_comp debug id1 id2 r; mret (Some (RetInt z, r'))
  end.

(** [__func__] in the function a call enters. *)
Definition func (op : Op) : string :=
  match op with
  | OpNew => "strqueue_new"
  | OpDelete _ => "strqueue_delete"
  | OpSize _ => "strqueue_size"
  | OpInsertAt _ _ _ => "strqueue_insert_at"
  | OpRemoveAt _ _ => "strqueue_remove_at"
  | OpGetAt _ _ => "strqueue_get_at"
  | OpClear _ => "strqueue_clear"
  | OpComp _ _ => "strqueue_comp"
  end.

(** The argument [debug_return] gets for a result. *)
Definition value_of (v : Ret) : value :=
  match v with
  | RetHandle id => VIntegral (Z.of_N id)
  | RetSize n => VIntegral (Z.of_N n)
  | RetStr None => VNull
  | RetStr (Some s) => VCString s
  | RetInt z => VIntegral z
  | RetVoid => VNull
  end.

End Trace.

(** ** The stream a call leaves on [cerr]

    [cerr] keeps no boundaries between the texts written to it: what a
    reader of the trace has is their concatenation.  [call_text] is the text
    [debug_call] writes when a call enters its function; a reader who knows
    the arguments of the call knows it. *)

Module Stream.

Definition written (o : list string) : string :=
  foldr String.append EmptyString o.

Definition call_text (op : Op) : string :=
  match op with
  | OpNew => Trace.debug_call "strqueue_new" ""
  | OpDelete id => Trace.debug_call "strqueue_delete" (Trace.to_string id)
  | OpSize id => Trace.debug_call "strqueue_size" (Trace.to_string id)
  | OpInsertAt id position None =>
      Trace.debug_call "strqueue_insert_at"
        (Trace.to_string id ++ ", " ++ Trace.to_string position ++ ", NULL")
  | OpInsertAt id position (Some s) =>
      Trace.debug_call "strqueue_insert_at"
        (Trace.to_string id ++ ", " ++ Trace.to_string position ++ ", "
           ++ Trace.quote ++ s ++ Trace.quote)
  | OpRemoveAt id position =>
      Trace.debug_call "strqueue_remove_at"
        (Trace.to_string id ++ ", " ++ Trace.to_string position)
  | OpGetAt id position =>
      Trace.debug_call "strqueue_get_at"
        (Trace.to_string id ++ ", " ++ Trace.to_string position)
  | OpClear id => Trace.debug_call "strqueue_clear" (Trace.to_string id)
  | OpComp id1 id2 =>
      Trace.debug_call "strqueue_comp"
        (Trace.to_string id1 ++ ", " ++ Trace.to_string id2)
  end.

Definition begins_with (text s : string) : Prop :=
  ∃ rest, s = (text ++ rest)%string.

Definition ends_with (text s : string) : Prop :=
  ∃ front, s = (front ++ text)%string.

(** The last two characters of a string. *)
Fixpoint last2 (s : string) : option (ascii * ascii) :=
  match s with
  | EmptyString => None
  | String c s' =>
      match s' with
      | EmptyString => None
      | String d EmptyString => Some (c, d)
      | String _ (String _ _) => last2 s'
      end
  end.

Definition is_digit (c : ascii) : bool :=
  (48 <=? N_of_ascii c) && (N_of_ascii c <=? 57).

Fixpoint digits (s : string) : bool :=
  match s with
  | EmptyString => true
  | String c s' => is_digit c && digits s'
  end.

End Stream.

(** * Proofs *)

(** ** Checks on the scenarios of the documentation *)

Example scenario_insert_remove :
  let r1 := default registry_init (snd <$> strqueue_new true registry_init) in
  let r2 := strqueue_insert_at 0 0 (Some "b"%string) r1 in
  let r3 := strqueue_insert_at 0 0 (Some "a"%string) r2 in
  let r4 := strqueue_insert_at 0 100 (Some "c"%string) r3 in
  let r5 := strqueue_remove_at 0 1 r4 in
  queues r4 !! 0 = Some ["a"; "b"; "c"]%string
  ∧ (strqueue_size 0 r4).1 = 3
  ∧ queues r5 !! 0 = Some ["a"; "c"]%string
  ∧ (strqueue_get_at 0 1 r5).1 = Some "c"%string.
Proof. vm_compute. done. Qed.

Example scenario_compare :
  (run true [OpNew; OpInsertAt 0 0 (Some "a"%string); OpNew; OpComp 0 1;
             OpDelete 0; OpSize 0; OpGetAt 0 0; OpComp 0 1]
     registry_init).1
  = [RetHandle 0; RetVoid; RetHandle 1; RetInt 1; RetVoid; RetSize 0;
     RetStr None; RetInt 0].
Proof. vm_compute. done. Qed.

(** ** The library order on strings is the byte-wise order *)

Lemma ascii_compare_lt_trans (a b c : ascii) :
  Ascii.compare a b = Lt → Ascii.compare b c = Lt → Ascii.compare a c = Lt.
Proof.
  unfold Ascii.compare. rewrite !N.compare_lt_iff. lia.
Qed.

Lemma string_compare_refl (s : string) : String.compare s s = Eq.
Proof.
  induction s as [|c s IH]; simpl; [done|].
  unfold Ascii.compare. by rewrite N.compare_refl.
Qed.

Lemma string_compare_lt_trans (s1 s2 s3 : string) :
  String.compare s1 s2 = Lt → String.compare s2 s3 = Lt →
  String.compare s1 s3 = Lt.
Proof.
  revert s2 s3.
  induction s1 as [|c1 t1 IH]; intros [|c2 t2] [|c3 t3]; simpl; try done.
  destruct (Ascii.compare c1 c2) eqn:H12; try done;
    destruct (Ascii.compare c2 c3) eqn:H23; try done; intros Ht1 Ht2.
  - apply Ascii.compare_eq_iff in H12, H23. subst.
    unfold Ascii.compare. rewrite N.compare_refl. eauto.
  - apply Ascii.compare_eq_iff in H12. subst. by rewrite H23.
  - apply Ascii.compare_eq_iff in H23. subst. by rewrite H12.
  - by rewrite (ascii_compare_lt_trans _ _ _ H12 H23).
Qed.

(** The sign of [std::string::compare] is the byte-wise order. *)
Lemma string_compare_sign (s1 s2 : string) :
  match String.compare s1 s2 with
  | Lt => (string_compare s1 s2 < 0)%Z
  | Eq => string_compare s1 s2 = 0%Z
  | Gt => (0 < string_compare s1 s2)%Z
  end.
Proof.
  revert s2. induction s1 as [|c1 t1 IH]; intros [|c2 t2];
    unfold string_compare; simpl; try lia.
  specialize (IH t2). unfold string_compare in IH. simpl in IH.
  unfold Ascii.compare.
  destruct (N.compare_spec (N_of_ascii c1) (N_of_ascii c2)) as [He|Hl|Hg].
  - rewrite He, N.ltb_irrefl.
    destruct (String.compare t1 t2);
      destruct (traits_compare t1 t2 _ =? 0)%Z; lia.
  - apply N.ltb_lt in Hl. rewrite Hl. simpl. lia.
  - assert ((N_of_ascii c1 <? N_of_ascii c2) = false) as ->
      by (apply N.ltb_ge; lia).
    apply N.ltb_lt in Hg. rewrite Hg. simpl. lia.
Qed.

Lemma string_lt_compare (s1 s2 : string) :
  string_lt s1 s2 = match String.compare s1 s2 with Lt => true | _ => false end.
Proof.
  unfold string_lt. pose proof (string_compare_sign s1 s2) as H.
  destruct (String.compare s1 s2).
  - rewrite H. done.
  - by apply Z.ltb_lt.
  - apply Z.ltb_ge. lia.
Qed.

(** ** Lexicographic order over an ordered element type *)

Section LexOrder.
Context {A : Type} (cmp : A → A → comparison).
Hypothesis cmp_antisym : ∀ x y, cmp x y = CompOpp (cmp y x).
Hypothesis cmp_eq : ∀ x y, cmp x y = Eq → x = y.
Hypothesis cmp_lt_trans : ∀ x y z, cmp x y = Lt → cmp y z = Lt → cmp x z = Lt.

Lemma cmp_refl x : cmp x x = Eq.
Proof. specialize (cmp_antisym x x). by destruct (cmp x x). Qed.

Lemma lex_order_antisym q1 q2 :
  Spec.lex_order cmp q1 q2 = CompOpp (Spec.lex_order cmp q2 q1).
Proof.
  revert q2. induction q1 as [|x t1 IH]; intros [|y t2]; simpl; try done.
  rewrite (cmp_antisym y x), IH. by destruct (cmp x y).
Qed.

Lemma lex_order_eq q1 q2 : Spec.lex_order cmp q1 q2 = Eq → q1 = q2.
Proof.
  revert q2. induction q1 as [|x t1 IH]; intros [|y t2]; simpl; try done.
  destruct (cmp x y) eqn:Hxy; try done.
  intros Ht. apply cmp_eq in Hxy. apply IH in Ht. by subst.
Qed.

Lemma lex_order_refl q : Spec.lex_order cmp q q = Eq.
Proof. induction q as [|x t IH]; simpl; [done|]. by rewrite cmp_refl. Qed.

Lemma lex_order_lt_trans q1 q2 q3 :
  Spec.lex_order cmp q1 q2 = Lt → Spec.lex_order cmp q2 q3 = Lt →
  Spec.lex_order cmp q1 q3 = Lt.
Proof.
  revert q2 q3.
  induction q1 as [|x t1 IH]; intros [|y t2] [|z t3]; simpl; try done.
  destruct (cmp x y) eqn:Hxy; try done;
    destruct (cmp y z) eqn:Hyz; try done; intros H1 H2.
  - apply cmp_eq in Hxy, Hyz. subst. rewrite cmp_refl. eauto.
  - apply cmp_eq in Hxy. subst. by rewrite Hyz.
  - apply cmp_eq in Hyz. subst. by rewrite Hxy.
  - by rewrite (cmp_lt_trans _ _ _ Hxy Hyz).
Qed.
End LexOrder.

Lemma queue_order_antisym q1 q2 :
  Spec.queue_order q1 q2 = CompOpp (Spec.queue_order q2 q1).
Proof. apply lex_order_antisym, String.compare_antisym. Qed.

Lemma queue_order_eq q1 q2 : Spec.queue_order q1 q2 = Eq → q1 = q2.
Proof. apply lex_order_eq, String.compare_eq_iff. Qed.

Lemma queue_order_refl q : Spec.queue_order q q = Eq.
Proof. apply lex_order_refl, String.compare_antisym. Qed.

Lemma queue_order_lt_trans q1 q2 q3 :
  Spec.queue_order q1 q2 = Lt → Spec.queue_order q2 q3 = Lt →
  Spec.queue_order q1 q3 = Lt.
Proof.
  apply lex_order_lt_trans.
  - apply String.compare_antisym.
  - apply String.compare_eq_iff.
  - apply string_compare_lt_trans.
Qed.

(** [std::lexicographical_compare] decides "less" of the lexicographic
    order. *)
Lemma lexicographical_compare_order q1 q2 :
  lexicographical_compare q1 q2
  = match Spec.queue_order q1 q2 with Lt => true | _ => false end.
Proof.
  revert q2. induction q1 as [|x t1 IH]; intros [|y t2]; simpl; try done.
  rewrite !string_lt_compare, (String.compare_antisym y x), IH.
  unfold Spec.queue_order. simpl.
  by destruct (String.compare x y).
Qed.

(** The integer [strqueue_comp] computes from two deques. *)
Lemma comp_result_order q1 q2 :
  (if deque_lt q1 q2 then (-1)%Z else if deque_gt q1 q2 then 1%Z else 0%Z)
  = Spec.code (Spec.queue_order q1 q2).
Proof.
  unfold deque_lt, deque_gt. rewrite !lexicographical_compare_order.
  rewrite (queue_order_antisym q2 q1).
  by destruct (Spec.queue_order q1 q2).
Qed.

(** ** Iterators, lookups and runs *)

Lemma deque_get_iterator_at_distance queue position :
  deque_get_iterator_at queue position = N.to_nat position.
Proof.
  unfold deque_get_iterator_at, deque_begin, iterator_next.
  induction position as [|p IH] using N.peano_ind; [done|].
  by rewrite N.iter_succ, IH, N2Nat.inj_succ.
Qed.

Lemma deque_size_gt queue position :
  (deque_size queue <=? position) = false
  ↔ (N.to_nat position < length queue)%nat.
Proof. unfold deque_size. rewrite N.leb_gt. lia. Qed.

Lemma deque_insert_lookup (queue : list string) it s :
  (it < length queue)%nat → deque_insert queue it s !! it = Some s.
Proof.
  intros Hit. unfold deque_insert.
  rewrite lookup_app_r; rewrite length_take; [|lia].
  by replace (it - it `min` length queue)%nat with O by lia.
Qed.

Lemma deque_insert_before (queue : list string) it s i :
  (it ≤ length queue)%nat → (i < it)%nat →
  deque_insert queue it s !! i = queue !! i.
Proof.
  intros Hit Hi. unfold deque_insert.
  rewrite lookup_app_l by (rewrite length_take; lia).
  by rewrite lookup_take_lt.
Qed.

Lemma deque_insert_after (queue : list string) it s i :
  (it ≤ length queue)%nat → (it ≤ i)%nat →
  deque_insert queue it s !! S i = queue !! i.
Proof.
  intros Hit Hi. unfold deque_insert.
  rewrite lookup_app_r by (rewrite length_take; lia).
  rewrite length_take.
  replace (S i - it `min` length queue)%nat with (S (i - it)) by lia.
  simpl. rewrite lookup_drop. f_equal. lia.
Qed.



Lemma deque_erase_length (queue : list string) it :
  (it < length queue)%nat → S (length (deque_erase queue it)) = length queue.
Proof.
  intros Hit. unfold deque_erase.
  pose proof (length_delete queue it (lookup_lt_is_Some_2 queue it Hit)). lia.
Qed.

(** Every call leaves the sentinel empty deque as it was. *)
Lemma exec_empty_queue debug op r v r' :
  exec debug op r = Some (v, r') → empty_queue r' = empty_queue r.
Proof.
  destruct op; simpl; unfold strqueue_new, strqueue_delete, strqueue_size,
    strqueue_insert_at, strqueue_remove_at, strqueue_get_at, strqueue_clear,
    strqueue_comp; intros H;
    repeat (case_match; simplify_eq/=); done.
Qed.

Lemma run_empty_queue debug ops r r' :
  (run debug ops r).2 = Some r' → empty_queue r' = empty_queue r.
Proof.
  revert r. induction ops as [|op ops IH]; intros r; simpl.
  - by intros [= ->].
  - destruct (exec debug op r) as [[v r1]|] eqn:Hop; [|done].
    destruct (run debug ops r1) as [vs fin] eqn:Hrun. simpl.
    intros ->. rewrite (IH r1) by (by rewrite Hrun).
    by eapply exec_empty_queue.
Qed.

Lemma reachable_empty_queue debug r : reachable debug r → empty_queue r = [].
Proof. intros [ops Hrun]. by apply run_empty_queue in Hrun. Qed.

Lemma reachable_init debug : reachable debug registry_init.
Proof. by exists []. Qed.

Lemma run_cons debug op ops r :
  run debug (op :: ops) r
  = match exec debug op r with
    | None => ([], None)
    | Some (v, r') => let '(vs, fin) := run debug ops r' in (v :: vs, fin)
    end.
Proof. reflexivity. Qed.

Lemma run_app debug ops1 ops2 r :
  run debug (ops1 ++ ops2) r
  = match run debug ops1 r with
    | (vs1, Some r1) =>
        let '(vs2, fin) := run debug ops2 r1 in (vs1 ++ vs2, fin)
    | (vs1, None) => (vs1, None)
    end.
Proof.
  revert r. induction ops1 as [|op ops1 IH]; intros r; simpl.
  - by destruct (run debug ops2 r).
  - destruct (exec debug op r) as [[v r1]|]; [|done].
    rewrite IH. destruct (run debug ops1 r1) as [vs1 [r2|]]; [|done].
    by destruct (run debug ops2 r2).
Qed.

Lemma reachable_step debug op r v r' :
  reachable debug r → exec debug op r = Some (v, r') → reachable debug r'.
Proof.
  intros [ops Hrun] Hop. exists (ops ++ [op]). rewrite run_app.
  destruct (run debug ops registry_init) as [vs fin]. simpl in Hrun. subst fin.
  simpl. by rewrite Hop.
Qed.

Lemma sample_run_registry debug :
  run debug sample_run registry_init
  = ([RetHandle 0; RetHandle 1; RetVoid; RetVoid], Some sample_registry).
Proof. destruct debug; vm_compute; done. Qed.

Lemma sample_registry_reachable debug : reachable debug sample_registry.
Proof. exists sample_run. by rewrite sample_run_registry. Qed.

(** ** insert_at *)

(** What the two queries read from the entry of a live handle. *)
Lemma strqueue_size_entry (r : Registry) (id : N) (queue : list string) :
  queues r !! id = Some queue → (strqueue_size id r).1 = deque_size queue.
Proof. intros Hq. unfold strqueue_size. by rewrite Hq. Qed.

Lemma strqueue_get_at_entry (r : Registry) (id position : N)
    (queue : list string) :
  queues r !! id = Some queue →
  (strqueue_get_at id position r).1 = queue !! N.to_nat position.
Proof.
  intros Hq. unfold strqueue_get_at. rewrite Hq. simpl.
  rewrite deque_get_iterator_at_distance. unfold iterator_deref.
  destruct (deque_size queue <=? position) eqn:Hpos; simpl; [|done].
  apply N.leb_le in Hpos. unfold deque_size in Hpos.
  symmetry. apply lookup_ge_None. lia.
Qed.

(** C1.  [strqueue_insert_at] on a live queue appends the value when the
    position is at or past the current size (so any position appends to an
    empty queue) and otherwise puts the value at that position, the earlier
    elements staying where they were and the later ones moving up by one;
    with an unknown handle or a null value the registry is returned as it
    was.  The queue is the one read back from the registry after the call:
    it is the entry of the handle there, and what [strqueue_size] and
    [strqueue_get_at] return for the handle; the counter, the sentinel and
    the entries of the other handles are as before. *)
Theorem strqueue_insert_at_policy (r : Registry) (id position : N)
    (str : option string) :
  (∀ queue s, queues r !! id = Some queue → str = Some s →
     ∃ queue',
       queues (strqueue_insert_at id position str r)
       = <[id := queue']> (queues r)
       ∧ queues (strqueue_insert_at id position str r) !! id = Some queue'
       ∧ cnt (strqueue_insert_at id position str r) = cnt r
       ∧ empty_queue (strqueue_insert_at id position str r) = empty_queue r
       ∧ (strqueue_size id (strqueue_insert_at id position str r)).1
         = N.of_nat (length queue')
       ∧ (∀ i, (strqueue_get_at id i (strqueue_insert_at id position str r)).1
               = queue' !! N.to_nat i)
       ∧ (deque_size queue ≤ position → queue' = queue ++ [s])
       ∧ (queue = [] → queue' = [s])
       ∧ (position < deque_size queue →
            queue' !! N.to_nat position = Some s
            ∧ length queue' = S (length queue)
            ∧ (∀ i, (i < N.to_nat position)%nat → queue' !! i = queue !! i)
            ∧ (∀ i, (N.to_nat position ≤ i)%nat →
                 queue' !! S i = queue !! i)))
  ∧ (queues r !! id = None ∨ str = None →
     strqueue_insert_at id position str r = r).
Proof.
  split.
  - intros queue s Hq ->.
    set (queue' :=
           if deque_size queue <=? position then deque_push_back queue s
           else deque_insert queue (deque_get_iterator_at queue position) s).
    assert (strqueue_insert_at id position (Some s) r
            = set_queues (<[id := queue']> (queues r)) r) as Hcall
      by (unfold strqueue_insert_at; by rewrite Hq).
    assert (queues (strqueue_insert_at id position (Some s) r) !! id
            = Some queue') as Hentry
      by (rewrite Hcall; simpl; apply lookup_insert_eq).
    exists queue'.
    split; [by rewrite Hcall|]. split; [done|].
    split; [by rewrite Hcall|]. split; [by rewrite Hcall|].
    split; [by rewrite (strqueue_size_entry _ _ _ Hentry)|].
    split; [intros i; by rewrite (strqueue_get_at_entry _ _ _ _ Hentry)|].
    subst queue'. rewrite deque_get_iterator_at_distance.
    destruct (deque_size queue <=? position) eqn:Hpos.
    + apply N.leb_le in Hpos. split; [done|]. split; [by intros ->|]. lia.
    + pose proof Hpos as Hlt%deque_size_gt. apply N.leb_gt in Hpos.
      split; [lia|]. split.
      { intros ->. simpl in Hlt. lia. }
      intros _. split; [|split; [|split]].
      * by apply deque_insert_lookup.
      * unfold deque_insert.
        rewrite length_app, length_take. simpl. rewrite length_drop. lia.
      * intros i Hi. apply deque_insert_before; lia.
      * intros i Hi. apply deque_insert_after; lia.
  - unfold strqueue_insert_at. intros [-> | ->]; [done|].
    by destruct (queues r !! id).
Qed.

Lemma strqueue_insert_at_policy_witness :
  (∃ queue',
     queues (strqueue_insert_at 0 1 (Some "c"%string) sample_registry) !! 0
     = Some queue'
     ∧ queue' !! 1%nat = Some "c"%string
     ∧ (strqueue_get_at 0 1
          (strqueue_insert_at 0 1 (Some "c"%string) sample_registry)).1
       = queue' !! 1%nat)
  ∧ strqueue_insert_at 5 1 (Some "c"%string) sample_registry = sample_registry.
Proof.
  pose proof (strqueue_insert_at_policy sample_registry 0 1
                (Some "c"%string)) as [Hlive _].
  pose proof (strqueue_insert_at_policy sample_registry 5 1
                (Some "c"%string)) as [_ Hdead].
  split.
  - destruct (Hlive ["a"; "b"]%string "c"%string eq_refl eq_refl)
      as (queue' & _ & Hentry & _ & _ & _ & Hget & _ & _ & Hin).
    exists queue'. split; [exact Hentry|].
    destruct (Hin eq_refl) as [Hat _]. split; [exact Hat|apply Hget].
  - apply Hdead. left. reflexivity.
Defined.

(** ** remove_at *)



(** ** insert_at followed by get_at *)

(** C7.  After [strqueue_insert_at] of a value into a live queue,
    [strqueue_get_at] at the resulting position returns that value; the
    resulting position is the size before the insertion when the requested
    position was at or past it, and the requested position otherwise. *)
Theorem strqueue_insert_then_get (r : Registry) (id position : N)
    (s : string) :
  live r id →
  let size_before := (strqueue_size id r).1 in
  let position' :=
    if size_before <=? position then size_before else position in
  (strqueue_get_at id position'
     (strqueue_insert_at id position (Some s) r)).1 = Some s.
Proof.
  intros [queue Hq]. unfold strqueue_size, strqueue_insert_at. rewrite Hq.
  simpl. unfold strqueue_get_at. simpl. rewrite lookup_insert_eq. simpl.
  rewrite !deque_get_iterator_at_distance.
  destruct (deque_size queue <=? position) eqn:Hpos.
  - assert ((deque_size (deque_push_back queue s) <=? deque_size queue)
            = false) as ->.
    { apply deque_size_gt. unfold deque_push_back, deque_size.
      rewrite length_app, Nat2N.id. simpl. lia. }
    simpl. unfold iterator_deref, deque_push_back, deque_size.
    rewrite Nat2N.id, lookup_app_r by lia.
    by replace (length queue - length queue)%nat with O by lia.
  - pose proof Hpos as Hlt%deque_size_gt.
    assert ((deque_size (deque_insert queue (N.to_nat position) s)
             <=? position) = false) as ->.
    { apply deque_size_gt. unfold deque_insert.
      rewrite length_app, length_take. simpl. rewrite length_drop. lia. }
    simpl. unfold iterator_deref. by apply deque_insert_lookup.
Qed.

Lemma strqueue_insert_then_get_witness :
  (strqueue_get_at 0 2 (strqueue_insert_at 0 9 (Some "z"%string)
                          sample_registry)).1 = Some "z"%string.
Proof.
  apply (strqueue_insert_then_get sample_registry 0 9 "z"%string).
  exists ["a"; "b"]%string. reflexivity.
Defined.

(** ** clear *)

(** C6.  [strqueue_clear] on a live handle, whatever the queue held, leaves
    the handle live with an empty queue: [strqueue_size] is then 0 and
    [strqueue_get_at] at position 0 returns the null pointer; on an unknown
    handle the registry is returned as it was. *)
Theorem strqueue_clear_empties (r : Registry) (id : N) :
  (live r id →
     let r' := strqueue_clear id r in
     live r' id
     ∧ queues r' !! id = Some []
     ∧ strqueue_size id r' = (0, r')
     ∧ strqueue_get_at id 0 r' = (None, r'))
  ∧ (¬ live r id → strqueue_clear id r = r).
Proof.
  unfold live, strqueue_clear. split.
  - intros [queue Hq]. rewrite Hq. simpl.
    unfold strqueue_size, strqueue_get_at. simpl.
    rewrite lookup_insert_eq. simpl. split; [by eexists|done].
  - intros Hq. destruct (queues r !! id); [|done].
    exfalso. apply Hq. by eexists.
Qed.

Lemma strqueue_clear_empties_witness :
  (live (strqueue_clear 0 sample_registry) 0
   ∧ (strqueue_size 0 (strqueue_clear 0 sample_registry)).1 = 0)
  ∧ strqueue_clear 7 sample_registry = sample_registry.
Proof.
  pose proof (strqueue_clear_empties sample_registry 0) as [Hlive _].
  pose proof (strqueue_clear_empties sample_registry 7) as [_ Hdead].
  split.
  - destruct Hlive as (Hl & _ & Hsize & _).
    + exists ["a"; "b"]%string. reflexivity.
    + split; [exact Hl|]. by rewrite Hsize.
  - apply Hdead. intros [queue Hq]. vm_compute in Hq. discriminate.
Defined.

(** ** Queries on handles that name no queue *)

(** A queue that is live after a call was live before it or was created by
    it. *)
Lemma exec_live debug op r v r' id :
  exec debug op r = Some (v, r') → live r' id →
  live r id ∨ handle_of v = Some id.
Proof.
  unfold live.
  destruct op; simpl; unfold strqueue_new, strqueue_delete, strqueue_size,
    strqueue_insert_at, strqueue_remove_at, strqueue_get_at, strqueue_clear,
    strqueue_comp; intros H Hl;
    repeat (case_match; simplify_eq/=); auto.
  - destruct (decide (cnt r = id)) as [->|Hne]; [by right|left].
    by rewrite lookup_insert_ne in Hl.
  - destruct (decide (id0 = id)) as [->|Hne].
    + rewrite lookup_delete_eq in Hl. by destruct Hl.
    + by rewrite lookup_delete_ne in Hl; [left|].
  - destruct (decide (id0 = id)) as [->|Hne]; [left; eauto|].
    by rewrite lookup_insert_ne in Hl; [left|].
  - destruct (decide (id0 = id)) as [->|Hne]; [left; eauto|].
    by rewrite lookup_insert_ne in Hl; [left|].
  - destruct (decide (id0 = id)) as [->|Hne].
    + left. destruct (queues r !! id); [eauto|done].
    + by rewrite lookup_insert_ne in Hl; [left|].
  - destruct (decide (id0 = id)) as [->|Hne]; [left; eauto|].
    by rewrite lookup_insert_ne in Hl; [left|].
Qed.

(** The live handles at the end of a run were live at its start or handed
    out during it. *)
Lemma run_live debug ops r vs r' id :
  run debug ops r = (vs, Some r') → live r' id →
  live r id ∨ id ∈ issued vs.
Proof.
  revert r vs. induction ops as [|op ops IH]; intros r vs; simpl.
  - intros [= <- <-]. auto.
  - destruct (exec debug op r) as [[v r1]|] eqn:Hop; [|done].
    destruct (run debug ops r1) as [vs1 fin] eqn:Hrun.
    intros [= <- ->] Hl. unfold issued. simpl.
    destruct (IH _ _ Hrun Hl) as [Hl1|Hin].
    + destruct (exec_live _ _ _ _ _ _ Hop Hl1) as [?|Hv]; [by left|right].
      rewrite Hv. apply list_elem_of_here.
    + right. destruct (handle_of v); [by apply list_elem_of_further|done].
Qed.

(** C5.  For a handle that names no live queue, [strqueue_size] returns 0
    and [strqueue_get_at] returns the null pointer at every position.  A
    handle is in that case after [strqueue_delete], where it answers both
    queries as any other handle without a queue does, and whenever no
    creation of the run handed it out.  For a live handle [strqueue_size]
    returns the number of elements of its queue. *)
Theorem strqueue_size_get_at_unknown (r : Registry) (id : N) :
  (¬ live r id →
     strqueue_size id r = (0, r)
     ∧ ∀ position, strqueue_get_at id position r = (None, r))
  ∧ (let r' := strqueue_delete id r in
     ¬ live r' id
     ∧ ∀ id', ¬ live r' id' →
         strqueue_size id r' = ((strqueue_size id' r').1, r')
         ∧ ∀ position,
             strqueue_get_at id position r'
             = ((strqueue_get_at id' position r').1, r'))
  ∧ (∀ debug ops vs,
       run debug ops registry_init = (vs, Some r) → id ∉ issued vs →
       ¬ live r id)
  ∧ (∀ queue, queues r !! id = Some queue →
       strqueue_size id r = (N.of_nat (length queue), r)).
Proof.
  assert (∀ r0 id0, ¬ live r0 id0 →
            strqueue_size id0 r0 = (0, r0)
            ∧ ∀ position, strqueue_get_at id0 position r0 = (None, r0))
    as Hunknown.
  { intros r0 id0 Hl. unfold strqueue_size, strqueue_get_at.
    destruct (queues r0 !! id0) as [queue|] eqn:Hq; [|done].
    exfalso. apply Hl. unfold live. rewrite Hq. by eexists. }
  assert (¬ live (strqueue_delete id r) id) as Hdel.
  { unfold live, strqueue_delete.
    destruct (queues r !! id) eqn:Hq; simpl.
    - rewrite lookup_delete_eq. by intros [? ?].
    - rewrite Hq. by intros [? ?]. }
  split; [apply Hunknown|]. split; [|split].
  - split; [exact Hdel|]. intros id' Hl'.
    destruct (Hunknown _ _ Hdel) as [Hs Hg].
    destruct (Hunknown _ _ Hl') as [Hs' Hg'].
    rewrite Hs, Hs'. split; [done|]. intros position.
    by rewrite Hg, Hg'.
  - intros debug ops vs Hrun Hnot Hl.
    destruct (run_live _ _ _ _ _ _ Hrun Hl) as [[q Hq]|Hin]; [|done].
    simpl in Hq. by rewrite lookup_empty in Hq.
  - intros queue Hq. unfold strqueue_size. by rewrite Hq.
Qed.

Lemma strqueue_size_get_at_unknown_witness :
  strqueue_size 5 sample_registry = (0, sample_registry)
  ∧ strqueue_get_at 5 0 sample_registry = (None, sample_registry)
  ∧ strqueue_size 0 sample_registry = (2, sample_registry).
Proof.
  pose proof (strqueue_size_get_at_unknown sample_registry 5)
    as (Hunknown & _ & Hnever & _).
  pose proof (strqueue_size_get_at_unknown sample_registry 0)
    as (_ & _ & _ & Hlive).
  assert (¬ live sample_registry 5) as Hl.
  { apply (Hnever true sample_run _ (sample_run_registry true)).
    apply (bool_decide_unpack _). vm_compute. exact I. }
  destruct (Hunknown Hl) as [Hs Hg].
  split; [exact Hs|]. split; [apply Hg|].
  apply (Hlive ["a"; "b"]%string). reflexivity.
Defined.

(** ** compare *)

Lemma queue_order_prefix (q q' : list string) :
  q' ≠ [] → Spec.queue_order q (q ++ q') = Lt.
Proof.
  intros Hq'. induction q as [|x t IH]; simpl.
  - by destruct q'.
  - unfold Spec.queue_order in *. simpl. by rewrite string_compare_refl.
Qed.

Lemma denoted_default (r : Registry) (id : N) :
  empty_queue r = [] →
  default (empty_queue r) (queues r !! id) = Spec.denoted r id.
Proof. intros ->. done. Qed.

(** C3.  In every registry a run can reach, [strqueue_comp] returns the
    lexicographic order of the two sequences of strings the handles denote
    (strings by their byte-wise order, a strict prefix being less), an
    unknown handle denoting the empty sequence: two unknown handles compare
    equal, an unknown handle is less than any non-empty queue, the result is
    one of -1, 0 and 1, and the registry is returned as it was. *)
Theorem strqueue_comp_lexicographic (debug : bool) (r : Registry)
    (id1 id2 : N) :
  reachable debug r →
  strqueue_comp id1 id2 r
  = (Spec.code (Spec.queue_order (Spec.denoted r id1) (Spec.denoted r id2)), r)
  ∧ (∀ q q', queues r !! id1 = Some q → queues r !! id2 = Some (q ++ q') →
       q' ≠ [] → (strqueue_comp id1 id2 r).1 = (-1)%Z)
  ∧ (¬ live r id1 → ¬ live r id2 → (strqueue_comp id1 id2 r).1 = 0%Z)
  ∧ (¬ live r id1 →
     ∀ queue, queues r !! id2 = Some queue → queue ≠ [] →
       (strqueue_comp id1 id2 r).1 = (-1)%Z)
  ∧ ((strqueue_comp id1 id2 r).1 = (-1)%Z
     ∨ (strqueue_comp id1 id2 r).1 = 0%Z
     ∨ (strqueue_comp id1 id2 r).1 = 1%Z).
Proof.
  intros Hempty%reachable_empty_queue.
  assert (strqueue_comp id1 id2 r
          = (Spec.code (Spec.queue_order (Spec.denoted r id1)
                          (Spec.denoted r id2)), r)) as Heq.
  { unfold strqueue_comp. simpl.
    by rewrite comp_result_order, !denoted_default. }
  rewrite Heq. simpl. unfold Spec.denoted, live.
  split; [done|]. split; [|split; [|split]].
  - intros q q' -> -> Hq'. simpl. by rewrite queue_order_prefix.
  - intros H1 H2.
    destruct (queues r !! id1); [exfalso; eauto|].
    destruct (queues r !! id2); [exfalso; eauto|]. done.
  - intros H1 queue -> Hne.
    destruct (queues r !! id1); [exfalso; eauto|].
    simpl. by destruct queue.
  - destruct (Spec.queue_order _ _); simpl; auto.
Qed.

Lemma strqueue_comp_lexicographic_witness :
  strqueue_comp 1 0 sample_registry = ((-1)%Z, sample_registry)
  ∧ (strqueue_comp 7 0 sample_registry).1 = (-1)%Z
  ∧ (strqueue_comp 7 8 sample_registry).1 = 0%Z.
Proof.
  pose proof (strqueue_comp_lexicographic true sample_registry 1 0
                (sample_registry_reachable true)) as (Heq & _).
  pose proof (strqueue_comp_lexicographic true sample_registry 7 0
                (sample_registry_reachable true)) as (_ & _ & _ & Hless & _).
  pose proof (strqueue_comp_lexicographic true sample_registry 7 8
                (sample_registry_reachable true)) as (_ & _ & Hequal & _).
  assert (∀ id, 7 ≤ id → ¬ live sample_registry id) as Hunknown.
  { intros id Hid [queue Hq]. unfold sample_registry in Hq. simpl in Hq.
    rewrite !lookup_insert_ne, lookup_empty in Hq by lia. discriminate. }
  split; [exact Heq|]. split.
  - apply (Hless (Hunknown 7 ltac:(lia)) ["a"; "b"]%string eq_refl).
    discriminate.
  - apply Hequal; apply Hunknown; lia.
Defined.

(** C8.  In every registry, [strqueue_comp] of a handle with itself returns
    0, live or not; exchanging the arguments negates the result, two
    handles compare equal only when they denote the same sequence, and
    less followed by less gives less. *)
Theorem strqueue_comp_order_laws (r : Registry) (a b c : N) :
  (strqueue_comp a a r).1 = 0%Z
  ∧ (strqueue_comp a b r).1 = (- (strqueue_comp b a r).1)%Z
  ∧ ((strqueue_comp a b r).1 = 0%Z →
     default (empty_queue r) (queues r !! a)
     = default (empty_queue r) (queues r !! b))
  ∧ ((strqueue_comp a b r).1 = (-1)%Z → (strqueue_comp b c r).1 = (-1)%Z →
     (strqueue_comp a c r).1 = (-1)%Z).
Proof.
  unfold strqueue_comp. simpl. rewrite !comp_result_order.
  set (qa := default (empty_queue r) (queues r !! a)).
  set (qb := default (empty_queue r) (queues r !! b)).
  set (qc := default (empty_queue r) (queues r !! c)).
  split; [by rewrite queue_order_refl|]. split; [|split].
  - rewrite (queue_order_antisym qa qb).
    by destruct (Spec.queue_order qb qa).
  - intros H. apply queue_order_eq.
    by destruct (Spec.queue_order qa qb).
  - intros Hab Hbc.
    rewrite (queue_order_lt_trans qa qb qc); [done| |].
    + by destruct (Spec.queue_order qa qb).
    + by destruct (Spec.queue_order qb qc).
Qed.

Lemma strqueue_comp_order_laws_witness :
  (strqueue_comp 7 0 (strqueue_insert_at 1 0 (Some "a"%string)
                        sample_registry)).1 = (-1)%Z.
Proof.
  pose proof (strqueue_comp_order_laws
                (strqueue_insert_at 1 0 (Some "a"%string) sample_registry)
                7 1 0) as (_ & _ & _ & Htrans).
  apply Htrans; reflexivity.
Defined.

(** ** Calls addressed to other handles *)

(** What a client observes of a handle depends on its entry and on the
    sentinel only. *)
Lemma observations_entry (r r' : Registry) (id : N) :
  queues r' !! id = queues r !! id → empty_queue r' = empty_queue r →
  (live r' id ↔ live r id)
  ∧ (strqueue_size id r').1 = (strqueue_size id r).1
  ∧ ∀ position,
      (strqueue_get_at id position r').1 = (strqueue_get_at id position r).1.
Proof.
  intros Hq He. unfold live, strqueue_size, strqueue_get_at.
  rewrite Hq, He. split; [done|]. split.
  - by destruct (queues r !! id).
  - intros position. by case_match.
Qed.

Lemma exec_other_entry debug op r v r' id' :
  exec debug op r = Some (v, r') → is_new op = false → id' ∉ addressed op →
  queues r' !! id' = queues r !! id'.
Proof.
  destruct op; simpl; try done;
    unfold strqueue_delete, strqueue_size, strqueue_insert_at,
      strqueue_remove_at, strqueue_get_at, strqueue_clear, strqueue_comp;
    intros H _ Hid;
    repeat (case_match; simplify_eq/=); try done;
    apply not_elem_of_cons in Hid as [Hid _];
    by rewrite ?lookup_insert_ne, ?lookup_delete_ne.
Qed.

Lemma exec_read_only debug op r v r' :
  exec debug op r = Some (v, r') → read_only op = true → r' = r.
Proof.
  destruct op; simpl; try done;
    unfold strqueue_size, strqueue_get_at, strqueue_comp; intros H _;
    repeat (case_match; simplify_eq/=); done.
Qed.

Lemma exec_cnt debug op r v r' :
  exec debug op r = Some (v, r') → is_new op = false → cnt r' = cnt r.
Proof.
  destruct op; simpl; try done;
    unfold strqueue_delete, strqueue_size, strqueue_insert_at,
      strqueue_remove_at, strqueue_get_at, strqueue_clear, strqueue_comp;
    intros H _; repeat (case_match; simplify_eq/=); done.
Qed.

(** C10.  A call of delete, insert_at, remove_at, clear, size, get_at or
    compare returns, and for every handle it is not addressed to the entry
    of that handle in the registry is the one from before the call: the
    handle is live exactly if it was, with the same size and the same
    string at every position.  The three queries return the registry as it
    was, so they create no entry, whatever handle they are given. *)
Theorem exec_frame (debug : bool) (op : Op) (r : Registry) (id' : N) :
  is_new op = false →
  ∃ v r',
    exec debug op r = Some (v, r')
    ∧ (read_only op = true → r' = r)
    ∧ (id' ∉ addressed op →
       queues r' !! id' = queues r !! id'
       ∧ (live r' id' ↔ live r id')
       ∧ (strqueue_size id' r').1 = (strqueue_size id' r).1
       ∧ ∀ position,
           (strqueue_get_at id' position r').1
           = (strqueue_get_at id' position r).1).
Proof.
  intros Hop.
  assert (∃ v r', exec debug op r = Some (v, r')) as (v & r' & Hexec).
  { destruct op; simpl; try done; eauto;
      unfold strqueue_size, strqueue_get_at, strqueue_comp;
      repeat case_match; eauto. }
  exists v, r'. split; [done|]. split.
  - intros Hro. by eapply exec_read_only.
  - intros Hid.
    assert (queues r' !! id' = queues r !! id') as Hq
      by (by eapply exec_other_entry).
    split; [done|].
    apply observations_entry; [done|]. by eapply exec_empty_queue.
Qed.

Lemma exec_frame_witness :
  ∃ v r',
    exec true (OpRemoveAt 0 0) sample_registry = Some (v, r')
    ∧ queues r' !! 1 = queues sample_registry !! 1.
Proof.
  destruct (exec_frame true (OpRemoveAt 0 0) sample_registry 1 eq_refl)
    as (v & r' & Hexec & _ & Hother).
  exists v, r'. split; [exact Hexec|].
  destruct Hother as [Hq _]; [|exact Hq].
  apply (bool_decide_unpack _). vm_compute. exact I.
Defined.

(** ** Handles handed out along a run *)

Lemma strqueue_new_returns debug r id r' :
  strqueue_new debug r = Some (id, r') →
  id = cnt r
  ∧ cnt r' = (cnt r + 1) mod 2 ^ 64
  ∧ (debug = true → cnt r < ULONG_MAX).
Proof.
  unfold strqueue_new.
  destruct debug; simpl.
  - destruct (cnt r <? ULONG_MAX) eqn:Hlt; simpl; [|done].
    apply N.ltb_lt in Hlt. intros [= <- <-]. done.
  - intros [= <- <-]. done.
Qed.

Lemma exec_other_returns debug op r v r' :
  exec debug op r = Some (v, r') → is_new op = false → handle_of v = None.
Proof.
  destruct op; simpl; try done;
    unfold strqueue_size, strqueue_get_at, strqueue_comp; intros H _;
    simplify_eq/=; repeat (case_match; simplify_eq/=); done.
Qed.

Lemma run_issued_without_creations debug ops r :
  creations ops = O → issued (run debug ops r).1 = [].
Proof.
  revert r. induction ops as [|op ops IH]; intros r Hc; [done|].
  simpl. destruct (exec debug op r) as [[v r1]|] eqn:Hop; [|done].
  destruct (run debug ops r1) as [vs fin] eqn:Hrun. simpl.
  destruct (is_new op) eqn:Hnew.
  - unfold creations in Hc. simpl in Hc. by rewrite Hnew in Hc.
  - unfold issued. simpl. rewrite (exec_other_returns _ _ _ _ _ Hop Hnew).
    specialize (IH r1). rewrite Hrun in IH. apply IH.
    unfold creations in *. simpl in Hc. by rewrite Hnew in Hc.
Qed.

Lemma counted_from_cons (c : N) (k : nat) :
  c :: ((λ i, c + 1 + N.of_nat i) <$> seq 0 k)
  = (λ i, c + N.of_nat i) <$> seq 0 (S k).
Proof.
  simpl. rewrite N.add_0_r. f_equal.
  rewrite <- fmap_S_seq, <- list_fmap_compose.
  apply list_fmap_ext. intros i x _. simpl. lia.
Qed.

(** As long as the counter cannot wrap, the handles of a run are the
    consecutive values of the counter. *)
Lemma run_issued_counted debug ops r :
  debug = true ∨ cnt r + N.of_nat (creations ops) ≤ 2 ^ 64 →
  issued (run debug ops r).1
  = (λ i, cnt r + N.of_nat i) <$> seq 0 (length (issued (run debug ops r).1)).
Proof.
  revert r. induction ops as [|op ops IH]; intros r Hbound; [done|].
  simpl. destruct (exec debug op r) as [[v r1]|] eqn:Hop; [|done].
  specialize (IH r1).
  destruct (run debug ops r1) as [vs fin] eqn:Hrun. simpl in *.
  destruct (is_new op) eqn:Hnew.
  - destruct op; try done. simpl in Hop.
    destruct (strqueue_new debug r) as [[id r2]|] eqn:Hcreate; [|done].
    simplify_eq. unfold issued. simpl. fold (issued vs).
    apply strqueue_new_returns in Hcreate as (-> & Hcnt & Hassert).
    unfold creations in Hbound. simpl in Hbound.
    fold (creations ops) in Hbound.
    destruct (decide (cnt r + 1 < 2 ^ 64)) as [Hsmall|Hlarge].
    + rewrite N.mod_small in Hcnt by done.
      rewrite IH, length_fmap, length_seq, Hcnt.
      * apply counted_from_cons.
      * rewrite Hcnt. destruct Hbound; [by left|right]. lia.
    + assert (creations ops = O) as Hnone.
      { destruct Hbound as [Hd|Hb].
        - specialize (Hassert Hd). unfold ULONG_MAX in Hassert. lia.
        - lia. }
      pose proof (run_issued_without_creations debug ops r1 Hnone) as Hnil.
      rewrite Hrun in Hnil. simpl in Hnil. rewrite Hnil. simpl.
      by rewrite N.add_0_r.
  - unfold issued. simpl. fold (issued vs).
    rewrite (exec_other_returns _ _ _ _ _ Hop Hnew).
    rewrite (exec_cnt _ _ _ _ _ Hop Hnew) in IH. apply IH.
    unfold creations in *. simpl in Hbound. by rewrite Hnew in Hbound.
Qed.

(** X19.  In a build that checks the assertion, the handles that the
    creations of a run from the initial statics return are 0, 1, 2, ... in
    this order, whatever other calls (deletions included) come in between
    and wherever the run ends: the i-th handle is i, later handles are
    larger and no handle is returned twice. *)
Theorem checked_handles_in_sequence (ops : list Op) :
  let hs := issued (run true ops registry_init).1 in
  (∀ i h, hs !! i = Some h → h = N.of_nat i)
  ∧ (∀ i j h h', (i < j)%nat → hs !! i = Some h → hs !! j = Some h' → h < h')
  ∧ NoDup hs.
Proof.
  intros hs.
  assert (∀ i h, hs !! i = Some h → h = N.of_nat i) as Hnth.
  { intros i h Hi. subst hs.
    rewrite run_issued_counted in Hi by (by left).
    rewrite list_lookup_fmap in Hi.
    destruct (seq 0 _ !! i) as [k|] eqn:Hk; [|done].
    apply lookup_seq in Hk as [-> _]. simpl in Hi. by simplify_eq. }
  split; [done|]. split.
  - intros i j h h' Hij ->%Hnth ->%Hnth. lia.
  - apply NoDup_alt. intros i j h Hi%Hnth Hj%Hnth. lia.
Qed.

(** Without the assertion, the rounds of [churn] hand out the values of the
    counter modulo 2^64 and end in a registry without queues. *)
Lemma run_churn_ndebug (n : nat) (c : N) :
  c < 2 ^ 64 →
  ∃ vs,
    run false (churn c n) (registry_at c)
    = (vs, Some (registry_at ((c + N.of_nat n) mod 2 ^ 64)))
    ∧ issued vs = (λ i, (c + N.of_nat i) mod 2 ^ 64) <$> seq 0 n.
Proof.
  revert c. induction n as [|n IH]; intros c Hc.
  - exists []. simpl. by rewrite N.add_0_r, N.mod_small.
  - destruct (IH ((c + 1) mod 2 ^ 64)) as (vs & Hrun & Hissued).
    { by apply N.mod_lt. }
    exists (RetHandle c :: RetVoid :: vs). split.
    + assert (strqueue_delete c
                {| cnt := (c + 1) mod 2 ^ 64;
                   queues := <[c := []]> ∅;
                   empty_queue := [] |}
              = registry_at ((c + 1) mod 2 ^ 64)) as Hround.
      { unfold strqueue_delete, set_queues, registry_at. simpl.
        by rewrite lookup_insert_eq, delete_insert_eq, delete_empty. }
      change (churn c (S n))
        with (OpNew :: OpDelete c :: churn ((c + 1) mod 2 ^ 64) n).
      rewrite run_cons.
      change (exec false OpNew (registry_at c))
        with (Some (RetHandle c,
                    {| cnt := (c + 1) mod 2 ^ 64;
                       queues := <[c := []]> ∅;
                       empty_queue := [] |})).
      cbv beta iota. rewrite run_cons.
      change (exec false (OpDelete c) ?r)
        with (Some (RetVoid, strqueue_delete c r)).
      cbv beta iota.
      rewrite Hround, Hrun. do 3 f_equal.
      rewrite N.Div0.add_mod_idemp_l. f_equal. lia.
    + change (issued (RetHandle c :: RetVoid :: vs)) with (c :: issued vs).
      rewrite Hissued.
      change (seq 0 (S n)) with (O :: seq 1 n).
      rewrite fmap_cons. change (N.of_nat 0) with 0.
      rewrite N.add_0_r, (N.mod_small c) by done. f_equal.
      rewrite <- fmap_S_seq, <- list_fmap_compose.
      apply list_fmap_ext. intros i x _. simpl.
      rewrite N.Div0.add_mod_idemp_l. f_equal. lia.
Qed.

Lemma handles_repeat_after (m : nat) :
  N.of_nat m = 2 ^ 64 →
  let hs := issued (run false (churn 0 (S m)) registry_init).1 in
  hs !! O = Some 0 ∧ hs !! m = Some 0.
Proof.
  intros Hm hs. subst hs.
  destruct (run_churn_ndebug (S m) 0) as (vs & Hrun & Hissued); [done|].
  change registry_init with (registry_at 0). rewrite Hrun. cbv [fst].
  rewrite Hissued, !list_lookup_fmap.
  rewrite !lookup_seq_lt by lia.
  cbv [fmap option_fmap option_map].
  rewrite !N.add_0_l. split; [done|].
  change (0 + m)%nat with m. by rewrite Hm, N.Div0.mod_same.
Qed.

(** C4.  No handle is to be returned twice, and [strqueue_new] asserts
    that the counter has values left.  With [NDEBUG] the assertion is not
    checked and the code does return a handle twice: of 2^64 + 1 rounds of
    creating a queue and deleting it, the first and the last creation both
    return handle 0. *)
Lemma handles_repeat_without_assert :
  let hs :=
    issued (run false (churn 0 (S (N.to_nat (2 ^ 64)))) registry_init).1 in
  hs !! O = Some 0 ∧ hs !! N.to_nat (2 ^ 64) = Some 0 ∧ ¬ NoDup hs.
Proof.
  intros hs.
  destruct (handles_repeat_after (N.to_nat (2 ^ 64)) (N2Nat.id _))
    as [Hfirst Hlast].
  fold hs in Hfirst, Hlast.
  split; [exact Hfirst|]. split; [exact Hlast|].
  intros Hnodup.
  pose proof (proj1 (NoDup_alt hs) Hnodup _ _ _ Hfirst Hlast) as Heq.
  apply (f_equal N.of_nat) in Heq. rewrite N2Nat.id in Heq. done.
Qed.

(** ** Exhaustion of the handles *)

Lemma counter_reaches (m : nat) :
  N.of_nat m = ULONG_MAX →
  (run false (churn 0 m) registry_init).2 = Some (registry_at ULONG_MAX).
Proof.
  intros Hm.
  destruct (run_churn_ndebug m 0) as (vs & Hrun & _); [done|].
  change registry_init with (registry_at 0). rewrite Hrun. simpl.
  by rewrite Hm.
Qed.

(** C9.  When the counter has reached [ULONG_MAX] the next creation is to
    stop the process, and where the assertion of [strqueue_new] is checked
    it does.  With [NDEBUG] the same creation returns: [ULONG_MAX] rounds of
    creating a queue and deleting it leave the counter at [ULONG_MAX], the
    next creation returns [ULONG_MAX] and the counter wraps to 0, and the
    creation after it returns handle 0 a second time. *)
Lemma strqueue_new_wraps_without_assert :
  (run false (churn 0 (N.to_nat ULONG_MAX)) registry_init).2
  = Some (registry_at ULONG_MAX)
  ∧ strqueue_new true (registry_at ULONG_MAX) = None
  ∧ ∃ r1 r2,
      strqueue_new false (registry_at ULONG_MAX) = Some (ULONG_MAX, r1)
      ∧ cnt r1 = 0
      ∧ strqueue_new false r1 = Some (0, r2).
Proof.
  split; [exact (counter_reaches (N.to_nat ULONG_MAX) (N2Nat.id _))|].
  split; [reflexivity|].
  eexists. eexists. unfold strqueue_new. simpl.
  split; [reflexivity|]. split; reflexivity.
Qed.

(** * Further properties of the registry *)

(** ** Reading a position *)

(** X1.  [strqueue_get_at] returns the string at index [position] of the
    queue the handle names and leaves the registry as it was; the result is
    the null pointer exactly when the handle is unknown or [position] is at
    or past the size of the queue. *)
Theorem strqueue_get_at_lookup (r : Registry) (id position : N) :
  strqueue_get_at id position r
  = (queues r !! id ≫= (λ queue, queue !! N.to_nat position), r)
  ∧ ((strqueue_get_at id position r).1 = None
     ↔ ¬ live r id ∨ (strqueue_size id r).1 ≤ position).
Proof.
  unfold strqueue_get_at, strqueue_size, live.
  destruct (queues r !! id) as [queue|] eqn:Hq; simpl.
  - rewrite deque_get_iterator_at_distance. unfold iterator_deref.
    destruct (deque_size queue <=? position) eqn:Hpos; simpl.
    + pose proof Hpos as Hle%N.leb_le.
      unfold deque_size in Hle.
      rewrite (proj2 (lookup_ge_None queue (N.to_nat position))) by lia.
      split; [done|]. split; [by right|done].
    + pose proof Hpos as Hlt%deque_size_gt.
      destruct (lookup_lt_is_Some_2 queue _ Hlt) as [s Hs].
      rewrite Hs. split; [done|]. split; [done|].
      apply N.leb_gt in Hpos.
      intros [Hl|Hle]; [exfalso; apply Hl; by eexists|lia].
  - split; [done|]. split; [|done]. intros _. left. by intros [? ?].
Qed.

(** ** Round trips of insertion and removal *)

Lemma set_queues_same (r : Registry) (id : N) (queue : list string) :
  queues r !! id = Some queue →
  set_queues (<[id := queue]> (queues r)) r = r.
Proof.
  intros Hq. destruct r as [c m e]. unfold set_queues. simpl in *.
  by rewrite insert_id.
Qed.

Lemma set_queues_twice (r : Registry) (id : N) (q1 q2 : list string) m :
  set_queues (<[id := q2]> (<[id := q1]> (queues r))) (set_queues m r)
  = set_queues (<[id := q2]> (queues r)) r.
Proof. unfold set_queues. simpl. by rewrite insert_insert_eq. Qed.

(** X2.  Removing the element that [strqueue_insert_at] has just inserted,
    at the position where it ended up, gives back the registry from before
    the insertion. *)
Theorem strqueue_insert_remove_round_trip (r : Registry) (id position : N)
    (s : string) :
  live r id →
  let size_before := (strqueue_size id r).1 in
  let position' :=
    if size_before <=? position then size_before else position in
  strqueue_remove_at id position' (strqueue_insert_at id position (Some s) r)
  = r.
Proof.
  intros [queue Hq]. unfold strqueue_size, strqueue_insert_at. rewrite Hq.
  simpl. unfold strqueue_remove_at. simpl. rewrite lookup_insert_eq. simpl.
  rewrite !deque_get_iterator_at_distance.
  destruct (deque_size queue <=? position) eqn:Hpos.
  - assert ((deque_size (deque_push_back queue s) <=? deque_size queue)
            = false) as ->.
    { apply deque_size_gt. unfold deque_push_back, deque_size.
      rewrite length_app, Nat2N.id. simpl. lia. }
    rewrite set_queues_twice.
    unfold deque_erase, deque_push_back, deque_size.
    rewrite Nat2N.id, delete_middle, app_nil_r.
    by apply set_queues_same.
  - pose proof Hpos as Hlt%deque_size_gt.
    assert ((deque_size (deque_insert queue (N.to_nat position) s)
             <=? position) = false) as ->.
    { apply deque_size_gt. unfold deque_insert.
      rewrite length_app, length_take. simpl. rewrite length_drop. lia. }
    rewrite set_queues_twice.
    unfold deque_erase, deque_insert.
    assert (length (take (N.to_nat position) queue) = N.to_nat position)
      as Hlen by (rewrite length_take; lia).
    rewrite <- Hlen at 1. rewrite delete_middle, take_drop.
    by apply set_queues_same.
Qed.

Lemma strqueue_insert_remove_round_trip_witness :
  strqueue_remove_at 0 1 (strqueue_insert_at 0 1 (Some "c"%string)
                            sample_registry)
  = sample_registry.
Proof.
  apply (strqueue_insert_remove_round_trip sample_registry 0 1 "c"%string).
  exists ["a"; "b"]%string. reflexivity.
Defined.

(** X3.  Inserting the string that [strqueue_get_at] returned at a position
    back at that position, after [strqueue_remove_at] removed it, gives back
    the registry from before the removal. *)
Theorem strqueue_remove_insert_round_trip (r : Registry) (id position : N) :
  live r id → position < (strqueue_size id r).1 →
  strqueue_insert_at id position (strqueue_get_at id position r).1
    (strqueue_remove_at id position r)
  = r.
Proof.
  intros [queue Hq]. unfold strqueue_size, strqueue_get_at. rewrite Hq.
  simpl. intros Hpos.
  assert ((deque_size queue <=? position) = false) as Hle
    by (apply N.leb_gt; lia).
  unfold strqueue_remove_at. rewrite Hq. simpl. rewrite !Hle. simpl.
  rewrite !deque_get_iterator_at_distance. unfold iterator_deref.
  pose proof Hle as Hlt%deque_size_gt.
  destruct (lookup_lt_is_Some_2 queue _ Hlt) as [s Hs]. rewrite Hs.
  unfold strqueue_insert_at. simpl. rewrite lookup_insert_eq.
  rewrite set_queues_twice, deque_get_iterator_at_distance.
  set (p := N.to_nat position) in *.
  assert (deque_erase queue p = take p queue ++ drop (S p) queue) as Herase
    by apply delete_take_drop.
  assert (take p queue ++ s :: drop (S p) queue = queue) as Hmid
    by (by apply take_drop_middle).
  assert (length (take p queue) = p) as Hlen by (rewrite length_take; lia).
  destruct (deque_size (deque_erase queue p) <=? position) eqn:Hlast.
  - apply N.leb_le in Hlast. unfold deque_size in Hlast.
    pose proof (deque_erase_length queue p Hlt) as Hel.
    assert (drop (S p) queue = []) as Hnil
      by (apply drop_ge; fold p in Hlast; lia).
    unfold deque_push_back. rewrite Herase, Hnil, app_nil_r.
    rewrite Hnil in Hmid. rewrite Hmid. by apply set_queues_same.
  - unfold deque_insert. rewrite Herase.
    rewrite take_app_length' by done.
    rewrite drop_app_length' by done.
    rewrite Hmid. by apply set_queues_same.
Qed.

Lemma strqueue_remove_insert_round_trip_witness :
  strqueue_insert_at 0 0 (strqueue_get_at 0 0 sample_registry).1
    (strqueue_remove_at 0 0 sample_registry)
  = sample_registry.
Proof.
  apply (strqueue_remove_insert_round_trip sample_registry 0 0).
  - exists ["a"; "b"]%string. reflexivity.
  - reflexivity.
Defined.

(** X4.  An insertion of a non-null value into a live queue keeps every
    string the queue held: the new queue is a rearrangement of the value
    together with the old queue, contains the old queue in its order, and
    is one longer. *)
Theorem strqueue_insert_at_keeps_elements (r : Registry) (id position : N)
    (s : string) (queue : list string) :
  queues r !! id = Some queue →
  ∃ queue',
    queues (strqueue_insert_at id position (Some s) r) !! id = Some queue'
    ∧ queue' ≡ₚ s :: queue
    ∧ sublist queue queue'
    ∧ (strqueue_size id (strqueue_insert_at id position (Some s) r)).1
      = (strqueue_size id r).1 + 1.
Proof.
  intros Hq. unfold strqueue_size, strqueue_insert_at. rewrite Hq. simpl.
  rewrite lookup_insert_eq. eexists. split; [reflexivity|].
  destruct (deque_size queue <=? position).
  - unfold deque_push_back, deque_size. split; [|split].
    + by rewrite Permutation_app_comm.
    + by apply sublist_inserts_r.
    + rewrite length_app. simpl. lia.
  - rewrite deque_get_iterator_at_distance. unfold deque_insert, deque_size.
    split; [|split].
    + rewrite <- Permutation_middle. by rewrite take_drop.
    + rewrite <- (take_drop (N.to_nat position) queue) at 1.
      apply sublist_app; [done|]. by apply sublist_cons.
    + rewrite length_app. simpl.
      rewrite <- (take_drop (N.to_nat position) queue) at 3.
      rewrite length_app. lia.
Qed.

Lemma strqueue_insert_at_keeps_elements_witness :
  ∃ queue',
    queues (strqueue_insert_at 0 1 (Some "c"%string) sample_registry) !! 0
    = Some queue'
    ∧ queue' ≡ₚ ["c"; "a"; "b"]%string.
Proof.
  destruct (strqueue_insert_at_keeps_elements sample_registry 0 1
              "c"%string ["a"; "b"]%string eq_refl)
    as (queue' & Hq & Hperm & _).
  exists queue'. split; [exact Hq|exact Hperm].
Defined.

(** ** The counter and the live handles, with the assertion checked *)

Lemma exec_counter_checked op r v r' :
  exec true op r = Some (v, r') →
  (is_new op = false → cnt r' = cnt r ∧ handle_of v = None)
  ∧ (is_new op = true →
     cnt r < ULONG_MAX ∧ cnt r' = cnt r + 1 ∧ v = RetHandle (cnt r)).
Proof.
  intros Hop. split; intros Hnew.
  - split; [by eapply exec_cnt|by eapply exec_other_returns].
  - destruct op; try done. simpl in Hop.
    destruct (strqueue_new true r) as [[id r1]|] eqn:Hcreate; [|done].
    simplify_eq.
    apply strqueue_new_returns in Hcreate as (-> & Hcnt & Hassert).
    specialize (Hassert eq_refl). unfold ULONG_MAX in *.
    rewrite N.mod_small in Hcnt by lia. done.
Qed.

Lemma is_new_cases (op : Op) : is_new op = true ∨ is_new op = false.
Proof. destruct (is_new op); auto. Qed.

Lemma creations_cons (op : Op) (ops : list Op) :
  creations (op :: ops)
  = ((if is_new op then 1 else 0) + creations ops)%nat.
Proof. unfold creations. simpl. by destruct (is_new op). Qed.

(** A run that completes has made all its creations without wrapping. *)
Lemma run_counter_checked ops r vs r' :
  run true ops r = (vs, Some r') →
  cnt r' = cnt r + N.of_nat (creations ops)
  ∧ (cnt r ≤ ULONG_MAX → cnt r' ≤ ULONG_MAX)
  ∧ (∀ id, live r' id → live r id ∨ cnt r ≤ id < cnt r').
Proof.
  revert r vs. induction ops as [|op ops IH]; intros r vs.
  - simpl. intros [= <- <-]. unfold creations. simpl.
    split; [lia|]. split; [done|]. auto.
  - rewrite run_cons, creations_cons.
    destruct (exec true op r) as [[v r1]|] eqn:Hop; [|done].
    destruct (run true ops r1) as [vs1 fin] eqn:Hrun.
    intros [= <- ->].
    destruct (IH _ _ Hrun) as (Hcnt & Hmax & Hlive).
    destruct (exec_counter_checked _ _ _ _ Hop) as [Hother Hcreate].
    destruct (is_new_cases op) as [Hnew|Hnew]; rewrite Hnew.
    + destruct (Hcreate Hnew) as (Hlt & Hc1 & ->).
      split; [lia|]. split; [intros _; apply Hmax; lia|].
      intros id [Hl|Hrange]%Hlive; [|right; lia].
      destruct (exec_live _ _ _ _ _ _ Hop Hl) as [?|Hid]; [by left|].
      simpl in Hid. simplify_eq. right. lia.
    + destruct (Hother Hnew) as [Hc1 Hv].
      split; [lia|]. split; [intros ?; apply Hmax; lia|].
      intros id [Hl|Hrange]%Hlive; [|right; lia].
      destruct (exec_live _ _ _ _ _ _ Hop Hl) as [?|Hid]; [by left|].
      congruence.
Qed.

(** The invariant of the registry in a build that checks the assertion. *)
Lemma checked_run_invariant (ops : list Op) (vs : list Ret)
    (r : Registry) :
  run true ops registry_init = (vs, Some r) →
  cnt r = N.of_nat (creations ops)
  ∧ cnt r ≤ ULONG_MAX
  ∧ (∀ id, live r id → id < cnt r)
  ∧ ¬ live r (cnt r).
Proof.
  intros Hrun.
  destruct (run_counter_checked _ _ _ _ Hrun) as (Hcnt & Hmax & Hlive).
  simpl in *.
  assert (∀ id, live r id → id < cnt r) as Hbelow.
  { intros id [[q Hq]|Hrange]%Hlive; [|lia].
    simpl in Hq. by rewrite lookup_empty in Hq. }
  split; [lia|]. split; [apply Hmax; unfold ULONG_MAX; lia|].
  split; [done|]. intros Hl%Hbelow. lia.
Qed.

(** X5.  With the assertion checked, at the end of every run from the
    initial statics the counter is the number of creations made, it has not
    passed [ULONG_MAX], and every live handle is below it: the handle the
    next creation would return names no queue. *)
Theorem reachable_handles_below_counter (ops : list Op) (vs : list Ret)
    (r : Registry) :
  run true ops registry_init = (vs, Some r) →
  cnt r = N.of_nat (creations ops)
  ∧ cnt r ≤ ULONG_MAX
  ∧ (∀ id, live r id → id < cnt r)
  ∧ ¬ live r (cnt r).
Proof. apply checked_run_invariant. Qed.

Lemma reachable_handles_below_counter_witness :
  cnt sample_registry = 2 ∧ ¬ live sample_registry 2.
Proof.
  destruct (reachable_handles_below_counter sample_run _ sample_registry
              (sample_run_registry true)) as (Hcnt & _ & _ & Hfresh).
  split; [exact Hcnt|exact Hfresh].
Defined.

(** X6.  With the assertion checked, a creation in a reachable registry
    whose counter is below [ULONG_MAX] returns a handle that named no queue,
    gives it an empty queue, moves the counter up by one and leaves every
    queue that existed as it was. *)
Theorem strqueue_new_fresh (r : Registry) :
  reachable true r → cnt r < ULONG_MAX →
  ∃ r',
    strqueue_new true r = Some (cnt r, r')
    ∧ ¬ live r (cnt r)
    ∧ queues r' !! cnt r = Some []
    ∧ cnt r' = cnt r + 1
    ∧ (∀ id, live r id → queues r' !! id = queues r !! id)
    ∧ (∀ id, live r' id ↔ live r id ∨ id = cnt r).
Proof.
  intros [ops Hrun] Hlt.
  destruct (run true ops registry_init) as [vs fin] eqn:Hr. simpl in Hrun.
  subst fin.
  destruct (checked_run_invariant _ _ _ Hr)
    as (_ & _ & Hbelow & Hfresh).
  unfold strqueue_new. apply N.ltb_lt in Hlt as Hltb. rewrite Hltb. simpl.
  eexists. split; [reflexivity|]. simpl.
  split; [done|]. split; [by rewrite lookup_insert_eq|]. split.
  { unfold ULONG_MAX in Hlt. rewrite N.mod_small; lia. }
  split.
  - intros id Hl. rewrite lookup_insert_ne; [done|].
    intros <-. by apply Hfresh.
  - intros id. unfold live. simpl.
    destruct (decide (cnt r = id)) as [<-|Hne].
    + rewrite lookup_insert_eq. split; [by right|by eexists].
    + rewrite lookup_insert_ne by done. split; [by left|].
      intros [?|?]; [done|congruence].
Qed.

Lemma strqueue_new_fresh_witness :
  ∃ r', strqueue_new true sample_registry = Some (2, r')
        ∧ queues r' !! 0 = queues sample_registry !! 0.
Proof.
  destruct (strqueue_new_fresh sample_registry
              (sample_registry_reachable true) eq_refl)
    as (r' & Hnew & _ & _ & _ & Hkept & _).
  exists r'. split; [exact Hnew|].
  apply Hkept. exists ["a"; "b"]%string. reflexivity.
Defined.

(** X7.  With the assertion checked, a handle that has been deleted names
    no queue at the end of any later run, whatever calls the run makes: no
    later creation returns it and no call addressed to it brings the queue
    back. *)
Theorem deleted_handle_stays_dead (r : Registry) (id : N) (ops : list Op)
    (r' : Registry) :
  reachable true r → live r id →
  (run true ops (strqueue_delete id r)).2 = Some r' →
  ¬ live r' id ∧ id < cnt r'.
Proof.
  intros [ops0 Hrun0] Hl Hrun.
  destruct (run true ops0 registry_init) as [vs0 fin0] eqn:Hr0.
  simpl in Hrun0. subst fin0.
  destruct (checked_run_invariant _ _ _ Hr0)
    as (_ & _ & Hbelow & _).
  specialize (Hbelow id Hl).
  assert (¬ live (strqueue_delete id r) id) as Hdead.
  { unfold live, strqueue_delete. destruct Hl as [q Hq]. rewrite Hq. simpl.
    rewrite lookup_delete_eq. by intros [? ?]. }
  assert (cnt (strqueue_delete id r) = cnt r) as Hcnt.
  { unfold strqueue_delete. by destruct (queues r !! id). }
  destruct (run true ops (strqueue_delete id r)) as [vs fin] eqn:Hr.
  simpl in Hrun. subst fin.
  destruct (run_counter_checked _ _ _ _ Hr) as (Hc & _ & Hlive).
  split; [|lia].
  intros [?|Hrange]%Hlive; [done|lia].
Qed.

Lemma deleted_handle_stays_dead_witness :
  ∃ r',
    (run true [OpNew; OpInsertAt 0 0 (Some "z"%string); OpClear 0; OpNew]
       (strqueue_delete 0 sample_registry)).2 = Some r'
    ∧ ¬ live r' 0.
Proof.
  eexists. split; [reflexivity|].
  refine (proj1 (deleted_handle_stays_dead sample_registry 0
                   [OpNew; OpInsertAt 0 0 (Some "z"%string); OpClear 0; OpNew]
                   _ (sample_registry_reachable true) _ eq_refl)).
  exists ["a"; "b"]%string. reflexivity.
Defined.

(** ** The sentinel empty deque *)

(** X8.  No run writes the deque behind [get_empty_queue]: it is at the end
    of a run what it was at the start, so in every registry reached from the
    initial statics it is empty, also after [strqueue_remove_at] took a
    mutable reference to it for an unknown handle. *)
Theorem sentinel_never_written (debug : bool) (ops : list Op)
    (r r' : Registry) :
  (run debug ops r).2 = Some r' →
  empty_queue r' = empty_queue r
  ∧ (r = registry_init → empty_queue r' = [])
  ∧ ∀ id position,
      empty_queue (strqueue_remove_at id position r') = empty_queue r.
Proof.
  intros Hrun. pose proof (run_empty_queue _ _ _ _ Hrun) as He.
  split; [done|]. split; [by intros ->|].
  intros id position. rewrite <- He. unfold strqueue_remove_at.
  by case_match.
Qed.

Lemma sentinel_never_written_witness :
  empty_queue (strqueue_remove_at 9 0 sample_registry) = [].
Proof.
  refine (proj2 (proj2 (sentinel_never_written true sample_run registry_init
                          sample_registry _)) 9 0).
  by rewrite sample_run_registry.
Defined.

(** ** Unknown handles and empty queues *)

(** X9.  In a reachable registry no query tells a handle without a queue
    from a handle whose queue is empty: [strqueue_size] and
    [strqueue_get_at] answer alike for both, [strqueue_comp] finds them
    equal, and each compares with any third handle as the other does. *)
Theorem unknown_handle_as_empty_queue (debug : bool) (r : Registry)
    (id1 id2 : N) :
  reachable debug r → ¬ live r id1 → queues r !! id2 = Some [] →
  (strqueue_size id1 r).1 = (strqueue_size id2 r).1
  ∧ (∀ position,
       (strqueue_get_at id1 position r).1 = (strqueue_get_at id2 position r).1)
  ∧ (strqueue_comp id1 id2 r).1 = 0%Z
  ∧ ∀ id,
      (strqueue_comp id1 id r).1 = (strqueue_comp id2 id r).1
      ∧ (strqueue_comp id id1 r).1 = (strqueue_comp id id2 r).1.
Proof.
  intros He%reachable_empty_queue Hl Hq.
  assert (queues r !! id1 = None) as Hnone.
  { destruct (queues r !! id1) eqn:H1; [|done].
    exfalso. apply Hl. unfold live. rewrite H1. by eexists. }
  unfold strqueue_size, strqueue_get_at, strqueue_comp.
  rewrite Hnone, Hq, He. simpl.
  split; [done|]. split; [|done].
  intros position. by destruct (deque_size [] <=? position).
Qed.

Lemma unknown_handle_as_empty_queue_witness :
  (strqueue_comp 7 1 sample_registry).1 = 0%Z
  ∧ (strqueue_comp 7 0 sample_registry).1
    = (strqueue_comp 1 0 sample_registry).1.
Proof.
  destruct (unknown_handle_as_empty_queue true sample_registry 7 1
              (sample_registry_reachable true))
    as (_ & _ & Hequal & Hthird).
  - intros [queue Hq]. unfold sample_registry in Hq. simpl in Hq.
    rewrite !lookup_insert_ne, lookup_empty in Hq by lia. discriminate.
  - reflexivity.
  - split; [exact Hequal|]. apply (Hthird 0).
Defined.

(** ** Runs that complete and runs that abort *)

Lemma exec_returns debug op r :
  is_new op = false → ∃ v r', exec debug op r = Some (v, r').
Proof.
  destruct op; simpl; try done; intros _; eauto;
    unfold strqueue_size, strqueue_get_at, strqueue_comp;
    repeat case_match; eauto.
Qed.

Lemma run_length debug ops r r' :
  (run debug ops r).2 = Some r' → length (run debug ops r).1 = length ops.
Proof.
  revert r. induction ops as [|op ops IH]; intros r; [done|].
  rewrite run_cons.
  destruct (exec debug op r) as [[v r1]|]; [|done].
  specialize (IH r1). destruct (run debug ops r1) as [vs fin]. simpl in *.
  intros Hfin. by rewrite IH.
Qed.

(** X10.  With the assertion checked, a run from a registry whose counter
    has not passed [ULONG_MAX] is aborted exactly when it asks for more
    creations than there are values left below [ULONG_MAX], and then at a
    creation; otherwise every call of the run returns.  With [NDEBUG] no
    run is ever aborted. *)
Theorem run_aborts_when_exhausted (ops : list Op) (r : Registry) :
  cnt r ≤ ULONG_MAX →
  ((run true ops r).2 = None
   ↔ ULONG_MAX < cnt r + N.of_nat (creations ops))
  ∧ (cnt r + N.of_nat (creations ops) ≤ ULONG_MAX →
     length (run true ops r).1 = length ops)
  ∧ is_Some (run false ops r).2.
Proof.
  intros Hmax.
  assert ((run true ops r).2 = None
          ↔ ULONG_MAX < cnt r + N.of_nat (creations ops)) as Habort.
  { revert r Hmax. induction ops as [|op ops IH]; intros r Hmax.
    - unfold creations. simpl. split; [done|lia].
    - rewrite run_cons, creations_cons.
      destruct (is_new_cases op) as [Hnew|Hnew]; rewrite Hnew.
      + destruct op; try done. simpl.
        unfold strqueue_new. simpl.
        destruct (cnt r <? ULONG_MAX) eqn:Hlt; simpl.
        * apply N.ltb_lt in Hlt.
          set (r1 := {| cnt := (cnt r + 1) mod 2 ^ 64;
                        queues := <[cnt r := []]> (queues r);
                        empty_queue := empty_queue r |}).
          assert (cnt r1 = cnt r + 1) as Hc1.
          { simpl. unfold ULONG_MAX in Hlt. rewrite N.mod_small; lia. }
          specialize (IH r1). rewrite Hc1 in IH.
          destruct (run true ops r1) as [vs fin]. simpl in *.
          rewrite IH by lia. lia.
        * apply N.ltb_ge in Hlt. split; [lia|done].
      + destruct (exec_returns true op r Hnew) as (v & r1 & Hop).
        rewrite Hop. pose proof (exec_cnt _ _ _ _ _ Hop Hnew) as Hc1.
        specialize (IH r1). rewrite Hc1 in IH.
        destruct (run true ops r1) as [vs fin]. simpl in *.
        by apply IH. }
  split; [done|]. split.
  - intros Hroom.
    destruct (run true ops r).2 as [r'|] eqn:Hfin.
    + by eapply run_length.
    + pose proof (proj1 Habort eq_refl). lia.
  - clear. revert r. induction ops as [|op ops IH]; intros r; [by eexists|].
    rewrite run_cons.
    assert (∃ v r1, exec false op r = Some (v, r1)) as (v & r1 & ->).
    { destruct (is_new_cases op) as [Hnew|Hnew];
        [|by apply exec_returns].
      destruct op; try done. simpl. unfold strqueue_new. simpl. eauto. }
    specialize (IH r1). by destruct (run false ops r1).
Qed.

Lemma run_aborts_when_exhausted_witness :
  (run true [OpNew; OpSize 0; OpNew] (registry_at (ULONG_MAX - 1))).2 = None.
Proof.
  refine (proj2 (proj1 (run_aborts_when_exhausted [OpNew; OpSize 0; OpNew]
                          (registry_at (ULONG_MAX - 1)) _)) _).
  - vm_compute. discriminate.
  - reflexivity.
Defined.

(** ** Deletion *)

(** X11.  [strqueue_delete] removes the entry of its handle and nothing
    else.  Read back from the registry after the call: the handle has no
    entry, every other handle has the entry it had, the counter and the
    sentinel are as before, and the registry holds one queue less when the
    handle was live.  On a handle without a queue the registry is returned
    as it was, deleting twice is deleting once, and two deletions give the
    same registry in either order. *)
Theorem strqueue_delete_removes (r : Registry) (id id' : N) :
  queues (strqueue_delete id r) !! id = None
  ∧ (id' ≠ id → queues (strqueue_delete id r) !! id' = queues r !! id')
  ∧ cnt (strqueue_delete id r) = cnt r
  ∧ empty_queue (strqueue_delete id r) = empty_queue r
  ∧ (live r id → S (size (queues (strqueue_delete id r))) = size (queues r))
  ∧ (strqueue_size id (strqueue_delete id r)).1 = 0
  ∧ (¬ live r id → strqueue_delete id r = r)
  ∧ strqueue_delete id (strqueue_delete id r) = strqueue_delete id r
  ∧ strqueue_delete id (strqueue_delete id' r)
    = strqueue_delete id' (strqueue_delete id r).
Proof.
  assert (∀ r0 id0,
            strqueue_delete id0 r0 = set_queues (delete id0 (queues r0)) r0)
    as Hdel.
  { intros [c m e] id0. unfold strqueue_delete, set_queues. simpl.
    destruct (m !! id0) eqn:Hm; [done|]. by rewrite delete_id. }
  assert (queues (strqueue_delete id r) !! id = None) as Hgone
    by (rewrite Hdel; simpl; apply lookup_delete_eq).
  split; [done|].
  split; [intros Hne; rewrite Hdel; simpl; by apply lookup_delete_ne|].
  split; [by rewrite Hdel|]. split; [by rewrite Hdel|].
  split; [|split; [|split; [|split]]].
  - intros Hl. rewrite Hdel. simpl.
    rewrite (map_size_delete_Some id (queues r) Hl).
    destruct Hl as [queue Hq].
    assert (size (queues r) ≠ O) as Hne.
    { intros Hz%map_size_empty_iff. by rewrite Hz, lookup_empty in Hq. }
    lia.
  - unfold strqueue_size. by rewrite Hgone.
  - intros Hl. unfold strqueue_delete, live in *.
    destruct (queues r !! id); [|done]. exfalso. apply Hl. by eexists.
  - rewrite !Hdel. unfold set_queues. simpl. f_equal.
    apply delete_id, lookup_delete_eq.
  - rewrite !Hdel. unfold set_queues. simpl. f_equal.
    apply delete_delete.
Qed.

Lemma strqueue_delete_removes_witness :
  S (size (queues (strqueue_delete 0 sample_registry)))
  = size (queues sample_registry)
  ∧ queues (strqueue_delete 0 sample_registry) !! 1
    = queues sample_registry !! 1
  ∧ strqueue_delete 7 sample_registry = sample_registry.
Proof.
  destruct (strqueue_delete_removes sample_registry 0 1)
    as (_ & Hother & _ & _ & Hsize & _).
  destruct (strqueue_delete_removes sample_registry 7 7)
    as (_ & _ & _ & _ & _ & _ & Hno & _).
  split; [|split].
  - apply Hsize. exists ["a"; "b"]%string. reflexivity.
  - apply Hother. discriminate.
  - apply Hno. intros [queue Hq]. unfold sample_registry in Hq. simpl in Hq.
    rewrite !lookup_insert_ne, lookup_empty in Hq by lia. discriminate.
Defined.

(** ** Sequences of insertions and removals *)

Lemma push_all_queue (id : N) (l queue : list string) (r : Registry) :
  queues r !! id = Some queue →
  push_all id l r = set_queues (<[id := queue ++ l]> (queues r)) r.
Proof.
  unfold push_all. revert queue r.
  induction l as [|s l IH]; intros queue r Hq; simpl.
  - rewrite app_nil_r. symmetry. by apply set_queues_same.
  - unfold strqueue_size at 2, strqueue_insert_at at 2. rewrite Hq. simpl.
    rewrite N.leb_refl.
    rewrite (IH (queue ++ [s])) by (simpl; apply lookup_insert_eq).
    unfold deque_push_back. simpl.
    by rewrite set_queues_twice, <- app_assoc.
Qed.

Lemma drain_queue (id : N) (l rest : list string) (r : Registry) :
  queues r !! id = Some (l ++ rest) →
  drain id (length l) r
  = (Some <$> l, set_queues (<[id := rest]> (queues r)) r).
Proof.
  revert r. induction l as [|s l IH]; intros r Hq; simpl.
  - f_equal. symmetry. by apply set_queues_same.
  - unfold strqueue_get_at at 1, strqueue_remove_at at 1. rewrite Hq. simpl.
    rewrite (IH _) by (simpl; apply lookup_insert_eq). simpl.
    by rewrite set_queues_twice.
Qed.

(** X12.  Strings inserted one after the other at the position that is the
    current size come out in the same order when the front element is read
    and removed as many times: the reads return the strings in insertion
    order and a queue that was empty is empty again, the registry being the
    one from before. *)
Theorem push_all_drain_fifo (r : Registry) (id : N) (l : list string) :
  queues r !! id = Some [] →
  queues (push_all id l r) !! id = Some l
  ∧ drain id (length l) (push_all id l r) = (Some <$> l, r).
Proof.
  intros Hq. rewrite (push_all_queue id l [] r Hq). simpl.
  split; [apply lookup_insert_eq|].
  rewrite (drain_queue id l []); simpl.
  - rewrite set_queues_twice. f_equal. by apply set_queues_same.
  - rewrite app_nil_r. apply lookup_insert_eq.
Qed.

Lemma push_all_drain_fifo_witness :
  drain 1 3 (push_all 1 ["x"; "y"; "z"]%string sample_registry)
  = ([Some "x"; Some "y"; Some "z"]%string, sample_registry).
Proof.
  apply (push_all_drain_fifo sample_registry 1 ["x"; "y"; "z"]%string).
  reflexivity.
Defined.

(** X13.  Removing the front element as many times as the queue has
    elements is [strqueue_clear]: both leave the handle live with the empty
    queue and the rest of the registry as it was. *)
Theorem strqueue_clear_as_removals (r : Registry) (id : N) :
  live r id →
  N.iter (strqueue_size id r).1 (strqueue_remove_at id 0) r
  = strqueue_clear id r.
Proof.
  intros [queue Hq]. unfold strqueue_size, strqueue_clear. rewrite Hq. simpl.
  unfold deque_size. rewrite N2Nat.inj_iter, Nat2N.id.
  pose proof (drain_queue id queue [] r) as Hdrain.
  rewrite app_nil_r in Hdrain. specialize (Hdrain Hq).
  assert (set_queues (<[id := []]> (queues r)) r
          = (drain id (length queue) r).2) as -> by (by rewrite Hdrain).
  clear Hdrain Hq.
  generalize (length queue) as n. intros n. revert r.
  induction n as [|n IH]; intros r; [done|].
  rewrite Nat.iter_succ_r. simpl.
  rewrite IH. by destruct (drain id n (strqueue_remove_at id 0 r)).
Qed.

Lemma strqueue_clear_as_removals_witness :
  strqueue_remove_at 0 0 (strqueue_remove_at 0 0 sample_registry)
  = strqueue_clear 0 sample_registry.
Proof.
  apply (strqueue_clear_as_removals sample_registry 0).
  exists ["a"; "b"]%string. reflexivity.
Defined.

(** ** Creation after the counter has wrapped *)

(** Rounds of [churn] over handles that are not in use leave the queues of
    the registry as they were. *)
Lemma run_churn_frame (n : nat) (c : N) (m : gmap N (list string))
    (e : list string) :
  c < 2 ^ 64 → c + N.of_nat n ≤ 2 ^ 64 → (∀ i, c ≤ i → m !! i = None) →
  (run false (churn c n) {| cnt := c; queues := m; empty_queue := e |}).2
  = Some {| cnt := (c + N.of_nat n) mod 2 ^ 64;
            queues := m; empty_queue := e |}.
Proof.
  revert c. induction n as [|n IH]; intros c Hc Hroom Hfree.
  - simpl. by rewrite N.add_0_r, N.mod_small.
  - change (churn c (S n))
      with (OpNew :: OpDelete c :: churn ((c + 1) mod 2 ^ 64) n).
    rewrite run_cons.
    change (exec false OpNew {| cnt := c; queues := m; empty_queue := e |})
      with (Some (RetHandle c,
                  {| cnt := (c + 1) mod 2 ^ 64;
                     queues := <[c := []]> m;
                     empty_queue := e |})).
    cbv beta iota. rewrite run_cons.
    change (exec false (OpDelete c) ?r)
      with (Some (RetVoid, strqueue_delete c r)).
    cbv beta iota.
    assert (strqueue_delete c
              {| cnt := (c + 1) mod 2 ^ 64;
                 queues := <[c := []]> m;
                 empty_queue := e |}
            = {| cnt := (c + 1) mod 2 ^ 64; queues := m; empty_queue := e |})
      as ->.
    { unfold strqueue_delete, set_queues. simpl.
      rewrite lookup_insert_eq, delete_insert_id; [done|].
      apply Hfree. lia. }
    destruct n as [|n].
    + simpl. done.
    + assert ((c + 1) mod 2 ^ 64 = c + 1) as Hnext
        by (apply N.mod_small; lia).
      specialize (IH ((c + 1) mod 2 ^ 64)). rewrite Hnext in *.
      destruct (run false (churn (c + 1) (S n)) _) as [vs fin] eqn:Hrun.
      simpl in *. rewrite IH; [|lia|lia|intros i Hi; apply Hfree; lia].
      do 2 f_equal. f_equal. lia.
Qed.

Lemma wrap_empties_after (s : string) (k : nat) :
  N.of_nat k = ULONG_MAX →
  ∃ r r',
    (run false ([OpNew; OpInsertAt 0 0 (Some s)] ++ churn 1 k)
       registry_init).2 = Some r
    ∧ strqueue_get_at 0 0 r = (Some s, r)
    ∧ strqueue_new false r = Some (0, r')
    ∧ strqueue_get_at 0 0 r' = (None, r').
Proof.
  intros Hk.
  assert (run false [OpNew; OpInsertAt 0 0 (Some s)] registry_init
          = ([RetHandle 0; RetVoid],
             Some {| cnt := 1; queues := <[0 := [s]]> ∅;
                     empty_queue := [] |})) as Hfirst.
  { unfold run, exec, strqueue_new, strqueue_insert_at, set_queues. simpl.
    rewrite lookup_insert_eq. simpl. by rewrite insert_insert_eq. }
  rewrite run_app, Hfirst.
  pose proof (run_churn_frame k 1 (<[0 := [s]]> ∅) []) as Hchurn.
  destruct (run false (churn 1 k) _) as [vs fin]. simpl in Hchurn.
  rewrite Hchurn; [| done | rewrite Hk; done
                   | by intros i Hi; rewrite lookup_insert_ne by lia].
  rewrite Hk. change ((1 + ULONG_MAX) mod 2 ^ 64) with 0.
  eexists. eexists. split; [reflexivity|].
  unfold strqueue_get_at, strqueue_new. simpl.
  rewrite lookup_insert_eq. simpl. split; [done|]. split; [reflexivity|].
  simpl. by rewrite lookup_insert_eq.
Qed.

(** X14.  With [NDEBUG], a creation made after the counter has wrapped
    takes a queue away from the client that holds it: a client creates
    queue 0 and inserts a string, [ULONG_MAX] rounds of creating and
    deleting a queue follow, and the next creation returns handle 0 again
    and leaves queue 0 empty, so that the string can no longer be read. *)
Theorem strqueue_new_wrap_empties_live_queue (s : string) :
  ∃ r r',
    (run false
       ([OpNew; OpInsertAt 0 0 (Some s)] ++ churn 1 (N.to_nat ULONG_MAX))
       registry_init).2 = Some r
    ∧ strqueue_get_at 0 0 r = (Some s, r)
    ∧ strqueue_new false r = Some (0, r')
    ∧ strqueue_get_at 0 0 r' = (None, r').
Proof. exact (wrap_empties_after s (N.to_nat ULONG_MAX) (N2Nat.id _)). Qed.

(** * The tracing *)

(** ** The texts the [debug_] functions write *)

Lemma string_app_inj_l (s a b : string) :
  (s ++ a)%string = (s ++ b)%string → a = b.
Proof. induction s as [|c s IH]; simpl; [done|]. intros [= H]. auto. Qed.

Lemma string_app_length (a b : string) :
  String.length (a ++ b) = (String.length a + String.length b)%nat.
Proof. induction a as [|c a IH]; simpl; [done|]. by rewrite IH. Qed.

(** ** What the tracing shows of a call *)

Ltac unfold_trace :=
  cbv [Trace.exec Trace.strqueue_new Trace.strqueue_delete
       Trace.strqueue_size Trace.strqueue_insert_at Trace.strqueue_remove_at
       Trace.strqueue_get_at Trace.strqueue_clear Trace.strqueue_comp
       Trace.func Trace.value_of
       mbind mret Trace.W_bind Trace.W_ret Trace.cerr Trace.skip
       exec strqueue_new strqueue_delete strqueue_size strqueue_insert_at
       strqueue_remove_at strqueue_get_at strqueue_clear strqueue_comp
       fst snd app andb orb negb].

(** X15.  The tracing is an observer: with it or without it, a call returns
    the same result and leaves the same registry as the function without
    tracing, and with [NDEBUG] a call writes nothing. *)
Theorem trace_erasure (debug : bool) (op : Op) (r : Registry) :
  (Trace.exec debug op r).2 = exec debug op r
  ∧ (Trace.exec false op r).1 = [].
Proof.
  split.
  - destruct op, debug; unfold_trace; repeat case_match; simplify_eq; done.
  - destruct op; unfold_trace; repeat case_match; simplify_eq; done.
Qed.

Lemma not_live_None (r : Registry) (id : N) :
  ¬ live r id ↔ queues r !! id = None.
Proof.
  unfold live. destruct (queues r !! id).
  - split; [intros H; exfalso; apply H; by eexists|done].
  - split; [done|by intros _ [? ?]].
Qed.

(** ** The stream of a call *)

Lemma string_app_cons (c : ascii) (a b : string) :
  (String c a ++ b)%string = String c (a ++ b).
Proof. reflexivity. Qed.

Lemma string_app_assoc (a b c : string) :
  ((a ++ b) ++ c)%string = (a ++ (b ++ c))%string.
Proof.
  induction a as [|x a IH]; [done|].
  rewrite !string_app_cons. by rewrite IH.
Qed.

Lemma string_app_nil_r (a : string) : (a ++ "")%string = a.
Proof.
  induction a as [|x a IH]; [done|]. rewrite string_app_cons. by rewrite IH.
Qed.

(** Whether the text after the call text begins with the notice is decided
    by the first characters in which the texts of a function differ. *)
Ltac texts_differ H :=
  unfold Trace.debug_call, Trace.debug_return, Trace.debug_done,
    Trace.debug_doesnt_exist, Trace.debug_doesnt_contain,
    Trace.debug_failed in H;
  rewrite ?string_app_assoc in H;
  repeat apply string_app_inj_l in H;
  discriminate H.

Ltac unfold_stream :=
  cbv [Stream.written Stream.call_text foldr
       Trace.exec Trace.strqueue_new Trace.strqueue_delete
       Trace.strqueue_size Trace.strqueue_insert_at Trace.strqueue_remove_at
       Trace.strqueue_get_at Trace.strqueue_clear Trace.strqueue_comp
       Trace.func Trace.value_of
       mbind mret Trace.W_bind Trace.W_ret Trace.cerr Trace.skip
       exec strqueue_new strqueue_delete strqueue_size strqueue_insert_at
       strqueue_remove_at strqueue_get_at strqueue_clear strqueue_comp
       fst snd app andb orb negb].

(** X16.  With tracing, what a call of delete, size, insert_at, remove_at,
    get_at or clear leaves on [cerr] is its call text followed by the rest,
    and the rest begins with the notice that the queue of its handle does
    not exist exactly when the handle names no queue. *)
Theorem trace_reports_unknown_handles (op : Op) (r : Registry) (id : N) :
  addressed op = [id] →
  ∃ tail,
    Stream.written (Trace.exec true op r).1
    = (Stream.call_text op ++ tail)%string
    ∧ (Stream.begins_with (Trace.debug_doesnt_exist (Trace.func op) id) tail
       ↔ ¬ live r id).
Proof.
  intros Hid. setoid_rewrite not_live_None.
  destruct op; simpl in Hid; simplify_eq;
    unfold_stream; repeat case_bool_decide; repeat case_match;
    simplify_eq;
    (eexists; split; [reflexivity|]);
    (split; [intros [rest Htext]; try done; try congruence
            |intros Hnone; try done; try congruence;
             unfold Stream.begins_with; by eexists]).
  all: texts_differ Htext.
Qed.

Lemma trace_reports_unknown_handles_witness :
  ∃ tail,
    Stream.written (Trace.exec true (OpClear 7) sample_registry).1
    = (Stream.call_text (OpClear 7) ++ tail)%string
    ∧ Stream.begins_with (Trace.debug_doesnt_exist "strqueue_clear" 7) tail.
Proof.
  destruct (trace_reports_unknown_handles (OpClear 7) sample_registry 7
              eq_refl) as (tail & Hstream & Hnotice).
  exists tail. split; [exact Hstream|].
  apply Hnotice.
  intros [queue Hq]. unfold sample_registry in Hq. simpl in Hq.
  rewrite !lookup_insert_ne, lookup_empty in Hq by lia. discriminate.
Defined.

(** *** How a stream ends *)

Lemma last2_app_r (a b : string) :
  (2 ≤ String.length b)%nat → Stream.last2 (a ++ b) = Stream.last2 b.
Proof.
  intros Hb. induction a as [|x a IH]; [done|].
  rewrite string_app_cons.
  assert (2 ≤ String.length (a ++ b))%nat as Hab
    by (rewrite string_app_length; lia).
  rewrite <- IH.
  destruct (a ++ b)%string as [|y [|z t]]; simpl in Hab; try lia.
  reflexivity.
Qed.

Lemma last2_snoc (a : string) (c d : ascii) :
  Stream.last2 (a ++ String c (String d "")) = Some (c, d).
Proof. rewrite last2_app_r; [done|simpl; lia]. Qed.

Lemma digits_last (s : string) :
  Stream.digits s = true → s ≠ ""%string →
  ∃ s' c, s = (s' ++ String c "")%string ∧ Stream.is_digit c = true.
Proof.
  induction s as [|x s IH]; [done|]. simpl.
  intros [Hx Hs]%andb_true_iff _.
  destruct s as [|y s].
  - by exists ""%string, x.
  - destruct (IH Hs) as (s' & c & Heq & Hc); [done|].
    exists (String x s'), c. rewrite string_app_cons, <- Heq. done.
Qed.

Lemma string_of_uint_digits (d : Decimal.uint) :
  Stream.digits (NilEmpty.string_of_uint d) = true.
Proof. induction d; simpl; done. Qed.

Lemma to_string_digits (n : N) :
  Stream.digits (Trace.to_string n) = true
  ∧ Trace.to_string n ≠ ""%string.
Proof.
  split; [apply string_of_uint_digits|].
  unfold Trace.to_string. intros H.
  apply (f_equal NilEmpty.uint_of_string) in H.
  rewrite NilEmpty.usu in H. simpl in H. simplify_eq.
  destruct n as [|p]; [done|]. simpl in H.
  by apply (DecimalPos.Unsigned.to_uint_nonnil p).
Qed.

Lemma int_to_string_of_N (n : N) :
  Trace.int_to_string (Z.of_N n) = Trace.to_string n.
Proof. by destruct n. Qed.

(** A decimal number followed by the newline ends in a digit and the
    newline. *)
Lemma last2_number (front : string) (n : N) :
  ∃ c, Stream.is_digit c = true
       ∧ Stream.last2 (front ++ Trace.to_string n ++ Trace.newline)
         = Some (c, "010"%char).
Proof.
  destruct (to_string_digits n) as [Hd Hne].
  destruct (digits_last _ Hd Hne) as (s' & c & -> & Hc).
  exists c. split; [done|].
  rewrite string_app_assoc, <- string_app_assoc.
  apply last2_snoc.
Qed.

Ltac text_length :=
  rewrite ?string_app_length; simpl; lia.

Ltac unfold_texts :=
  unfold Trace.debug_call, Trace.debug_return, Trace.debug_done,
    Trace.debug_doesnt_exist, Trace.debug_doesnt_contain,
    Trace.debug_failed, Trace.newline, Trace.quote.

Ltac unfold_texts_in H :=
  unfold Trace.debug_call, Trace.debug_return, Trace.debug_done,
    Trace.debug_doesnt_exist, Trace.debug_doesnt_contain,
    Trace.debug_failed, Trace.newline, Trace.quote in H.

Lemma last2_done (front name : string) :
  Stream.last2 (front ++ Trace.debug_done name)
  = Some ("e"%char, "010"%char).
Proof.
  unfold_texts. rewrite !last2_app_r by text_length. reflexivity.
Qed.

(** A stream that does not end in "e" and the newline does not end in the
    "done" text. *)
Ltac not_done H :=
  apply (f_equal Stream.last2) in H;
  rewrite last2_done in H;
  unfold_texts_in H;
  rewrite ?int_to_string_of_N in H;
  rewrite ?string_app_nil_r, ?string_app_assoc in H;
  repeat (rewrite last2_app_r in H by text_length);
  first
    [ discriminate H
    | match type of H with
      | Stream.last2 (?front ++ Trace.to_string ?n ++ _) = _ =>
          let c := fresh "c" in
          let Hc := fresh "Hc" in
          let Hl := fresh "Hl" in
          destruct (last2_number front n) as (c & Hc & Hl);
          unfold Trace.newline in Hl;
          rewrite Hl in H; injection H as H; subst c; discriminate Hc
      | Stream.last2 (Trace.to_string ?n ++ _) = _ =>
          let c := fresh "c" in
          let Hc := fresh "Hc" in
          let Hl := fresh "Hl" in
          destruct (last2_number "" n) as (c & Hc & Hl);
          unfold Trace.newline in Hl;
          change (Stream.last2 (Trace.to_string n ++ String "010" ""))
            with (Stream.last2 ("" ++ Trace.to_string n ++ String "010" ""))
            in H;
          rewrite Hl in H; injection H as H; subst c; discriminate Hc
      end ].

(** X17.  With tracing, delete, insert_at, remove_at and clear announce
    every change at the end of what they leave on [cerr]: the stream of a
    call that leaves the registry different from what it was ends with its
    "done" text, and a call whose stream ends with the "done" text of its
    function is one of these four, addressed to a live handle.  The stream
    of a query never ends with it. *)
Theorem trace_done_announces_change (op : Op) (r : Registry) :
  is_new op = false →
  (∀ v r', exec true op r = Some (v, r') → r' ≠ r →
     Stream.ends_with (Trace.debug_done (Trace.func op))
       (Stream.written (Trace.exec true op r).1))
  ∧ (Stream.ends_with (Trace.debug_done (Trace.func op))
       (Stream.written (Trace.exec true op r).1) →
     read_only op = false ∧ ∀ id, id ∈ addressed op → live r id).
Proof.
  intros Hnew. split.
  - intros v r'.
    destruct op; try done; unfold_stream;
      repeat case_bool_decide; repeat case_match; simplify_eq;
      intros Hexec Hchange; simplify_eq; try done;
      unfold Stream.ends_with; eexists; rewrite string_app_nil_r;
      reflexivity.
  - destruct op; try done; unfold_stream;
      repeat case_bool_decide; repeat case_match; simplify_eq;
      intros [front Htext];
      first
        [ by (exfalso; not_done Htext)
        | (split; [done|]); intros id' Hid; simpl in Hid;
          repeat (apply elem_of_cons in Hid as [Hid|Hid]);
          try (by apply elem_of_nil in Hid); subst;
          apply dec_stable; rewrite not_live_None; congruence ].
Qed.

Lemma trace_done_announces_change_witness :
  Stream.ends_with (Trace.debug_done "strqueue_remove_at")
    (Stream.written (Trace.exec true (OpRemoveAt 0 0) sample_registry).1).
Proof.
  destruct (trace_done_announces_change (OpRemoveAt 0 0) sample_registry
              eq_refl) as [Hchange _].
  eapply Hchange; [reflexivity|].
  intros Heq. apply (f_equal (λ r0, queues r0 !! 0)) in Heq.
  vm_compute in Heq. discriminate.
Defined.

Lemma iterator_deref_in_range (queue : list string) (position : N) :
  (deque_size queue <=? position) = false →
  is_Some (iterator_deref queue (deque_get_iterator_at queue position)).
Proof.
  intros Hpos%deque_size_gt. rewrite deque_get_iterator_at_distance.
  by apply lookup_lt_is_Some_2.
Qed.

(** X18.  With tracing, the last text of a call that returns a value
    reports that value: the handle [strqueue_new] returns (not the counter
    after it), the size, the string or NULL, the result of the
    comparison. *)
Theorem trace_reports_result (op : Op) (r : Registry) (v : Ret)
    (r' : Registry) :
  exec true op r = Some (v, r') → v ≠ RetVoid →
  last (Trace.exec true op r).1
  = Some (Trace.debug_return (Trace.func op) (Trace.value_of v)).
Proof.
  destruct op; unfold_trace;
    repeat case_bool_decide; repeat case_match; simplify_eq;
    intros Hexec Hvoid; simplify_eq; try done.
  all: match goal with
       | H : (deque_size ?q <=? ?p) = false,
         H' : iterator_deref ?q _ = None |- _ =>
           destruct (iterator_deref_in_range q p H) as [? ?]; congruence
       end.
Qed.

Lemma trace_reports_result_witness :
  last (Trace.exec true (OpGetAt 0 1) sample_registry).1
  = Some (Trace.debug_return "strqueue_get_at" (Trace.VCString "b")).
Proof.
  apply (trace_reports_result (OpGetAt 0 1) sample_registry
           (RetStr (Some "b"%string)) sample_registry).
  - reflexivity.
  - discriminate.
Defined.
